(** * CSNAnalysis: conformational state networks ([csnanalysis/csn.py])

    A shallow embedding of [count_to_trans], [symmetrize] and the class
    [CSN] ([__init__] and [trim_graph]), together with the parts of numpy,
    scipy.sparse and networkx those functions call.

    Conventions of the embedding.
    - numpy's float64 entries are idealised as exact rationals ([Qc], the
      canonical rationals, so that equal numbers are equal terms): no
      rounding, no overflow to infinity, and no wrap-around of integer
      dtypes.  Where that matters, [count_to_trans] is also instantiated at
      IEEE 754 binary64 (module [F64]).
    - A scipy sparse matrix is represented by what the program observes of
      it: its [shape] and the dense content [toarray()] returns.  The
      coordinate lists [.row], [.col], [.data] of a matrix made by
      [coo_matrix(dense)] are given by [coo_triples].
    - A Python exception is a value of [exn]; code that may raise returns
      a [result]. *)

From Stdlib Require Import String List Arith Bool Lia QArith Qcanon.
From Stdlib Require PrimFloat.
Import ListNotations.

(* ------------------------------------------------------------------ *)
(** ** Exceptions and the error monad                                   *)
(* ------------------------------------------------------------------ *)

Module Py.

(** The exceptions the modelled code can raise.  [ValueError] carries
    the message and, when the code passes one, the shape tuple given as
    second argument of the exception. *)
Inductive exn : Type :=
| TypeError (msg : string)
| ValueError (msg : string) (shape_arg : option (nat * nat))
| IndexError (msg : string).

Inductive result (A : Type) : Type :=
| Ok (a : A)
| Raise (e : exn).

Arguments Ok {A} a.
Arguments Raise {A} e.

Definition bind {A B : Type} (m : result A) (k : A -> result B) : result B :=
  match m with
  | Ok a => k a
  | Raise e => Raise e
  end.

Definition is_ok {A : Type} (m : result A) : bool :=
  match m with Ok _ => true | Raise _ => false end.

(** Objects that can be the operand of [is]: the two Python singletons
    [True] and [False], and numpy's boolean scalars ([numpy.bool_]),
    which is what indexing an array of dtype bool returns. *)
Inductive obj : Type :=
| PyTrue
| PyFalse
| NpBool (b : bool).

(** [a is b]: object identity.  [numpy.True_] and [numpy.False_] are
    objects of their own, distinct from Python's [True] and [False]. *)
Definition is_ (a b : obj) : bool :=
  match a, b with
  | PyTrue, PyTrue => true
  | PyFalse, PyFalse => true
  | NpBool x, NpBool y => Bool.eqb x y
  | _, _ => false
  end.

End Py.

Import Py.

Notation "x <- m ;; k" := (Py.bind m (fun x => k))
  (at level 61, m at next level, right associativity).

(* ------------------------------------------------------------------ *)
(** ** Numbers                                                          *)
(* ------------------------------------------------------------------ *)

Open Scope Qc_scope.

Definition Qcltb (a b : Qc) : bool :=
  match a ?= b with Lt => true | _ => false end.

Definition Qcleb (a b : Qc) : bool :=
  match a ?= b with Gt => false | _ => true end.

Definition Qceqb (a b : Qc) : bool :=
  match a ?= b with Eq => true | _ => false end.

(** Integer and half literals. *)
Definition qz (z : Z) : Qc := Q2Qc (inject_Z z).
Definition half : Qc := Q2Qc (1 # 2).

(* ------------------------------------------------------------------ *)
(** ** Matrices (numpy 2-D arrays and scipy sparse matrices)            *)
(* ------------------------------------------------------------------ *)

Module Mat.

Record matrix : Type := mk {
  shape : nat * nat;
  rows : list (list Qc)
}.

Definition nrows (m : matrix) : nat := fst (shape m).
Definition ncols (m : matrix) : nat := snd (shape m).

(** What numpy guarantees of a 2-D array: as many rows as the shape
    says, each of the width the shape says. *)
Definition wf (m : matrix) : Prop :=
  length (rows m) = nrows m /\
  Forall (fun r => length r = ncols m) (rows m).

Definition nonneg (m : matrix) : Prop :=
  Forall (Forall (fun x => 0 <= x)) (rows m).

(** [m[i, j]] (0 outside the stored rows). *)
Definition get (m : matrix) (i j : nat) : Qc :=
  nth j (nth i (rows m) []) 0.

(** The [r] by [c] array whose entry (i, j) is [f i j]. *)
Definition build (r c : nat) (f : nat -> nat -> Qc) : matrix :=
  {| shape := (r, c);
     rows := map (fun i => map (f i) (seq 0 c)) (seq 0 r) |}.

(** [m.transpose()] *)
Definition transpose (m : matrix) : matrix :=
  build (ncols m) (nrows m) (fun i j => get m j i).

(** [a + b] on sparse matrices; scipy raises
    [ValueError("inconsistent shapes")] when the shapes differ. *)
Definition add (a b : matrix) : result matrix :=
  if (Nat.eqb (nrows a) (nrows b) && Nat.eqb (ncols a) (ncols b))%bool
  then Ok (build (nrows a) (ncols a) (fun i j => get a i j + get b i j))
  else Raise (ValueError "inconsistent shapes" None).

(** [k * m] for a scalar [k] *)
Definition scale (k : Qc) (m : matrix) : matrix :=
  build (nrows m) (ncols m) (fun i j => k * get m i j).

(** [a.sum(axis=1)] restricted to one row *)
Definition row_sum (r : list Qc) : Qc := fold_right Qcplus 0 r.

(** [a.sum(axis=1)]: the list of row sums *)
Definition sum_axis1 (a : list (list Qc)) : list Qc := map row_sum a.

(** [a[i] = r] for a row index within range *)
Fixpoint set_row (i : nat) (r : list Qc) (a : list (list Qc))
  : list (list Qc) :=
  match a, i with
  | [], _ => []
  | _ :: a', O => r :: a'
  | x :: a', S i' => x :: set_row i' r a'
  end.

(** [enumerate(l)] *)
Definition enumerate {A : Type} (l : list A) : list (nat * A) :=
  combine (seq 0 (length l)) l.

(** The entries [coo_matrix(dense)] stores, as [zip(.row, .col, .data)]:
    the non-zero entries of the dense array in row-major order. *)
Definition coo_row (i : nat) (r : list Qc) : list (nat * nat * Qc) :=
  flat_map (fun '(j, x) => if Qceqb x 0 then [] else [(i, j, x)])
           (enumerate r).

Definition coo_triples (m : matrix) : list (nat * nat * Qc) :=
  flat_map (fun '(i, r) => coo_row i r) (enumerate (rows m)).

(** [a[mask, ...][..., mask]] for a boolean mask *)
Fixpoint select {A : Type} (mask : list bool) (l : list A) : list A :=
  match mask, l with
  | b :: mask', x :: l' => if b then x :: select mask' l' else select mask' l'
  | _, _ => []
  end.

Definition count_true (mask : list bool) : nat :=
  length (filter (fun b => b) mask).

(** numpy raises [IndexError] when a boolean index does not have the
    length of the dimension it indexes. *)
Definition submatrix (mask : list bool) (m : matrix) : result matrix :=
  if (Nat.eqb (length mask) (nrows m) && Nat.eqb (length mask) (ncols m))%bool
  then Ok {| shape := (count_true mask, count_true mask);
             rows := map (select mask) (select mask (rows m)) |}
  else Raise (IndexError "boolean index did not match indexed array").

End Mat.

Import Mat.

(* ------------------------------------------------------------------ *)
(** ** Module-level functions of csn.py                                 *)
(* ------------------------------------------------------------------ *)

(** [tmp[i] /= c] *)
Definition div_row (r : list Qc) (c : Qc) : list Qc :=
  map (fun x => x / c) r.

(** One iteration of the loop of [count_to_trans]:
    [if c > 0: tmp[i] /= c]. *)
Definition count_to_trans_step (tmp : list (list Qc)) (ic : nat * Qc)
  : list (list Qc) :=
  let '(i, c) := ic in
  if Qcltb 0 c then set_row i (div_row (nth i tmp []) c) tmp else tmp.

(** [count_to_trans(countmat)] *)
Definition count_to_trans (countmat : matrix) : matrix :=
  let tmp := rows countmat in
  let colsums := sum_axis1 tmp in
  let tmp' := fold_left count_to_trans_step (enumerate colsums) tmp in
  {| shape := shape countmat; rows := tmp' |}.

(** [symmetrize(countmat)]: [0.5*(countmat + countmat.transpose())] *)
Definition symmetrize (countmat : matrix) : result matrix :=
  s <- add countmat (transpose countmat) ;;
  Ok (scale half s).

(* ------------------------------------------------------------------ *)
(** ** networkx: directed graphs and depth-first search                 *)
(* ------------------------------------------------------------------ *)

Module Nx.

(** Python dicts keep insertion order; a dict is an association list
    with distinct keys, in insertion order. *)
Definition dict (V : Type) : Type := list (nat * V).

Definition keys {V : Type} (d : dict V) : list nat := map fst d.

Fixpoint dict_get {V : Type} (d : dict V) (k : nat) : option V :=
  match d with
  | [] => None
  | (k', v) :: d' => if Nat.eqb k k' then Some v else dict_get d' k
  end.

(** [k in d] *)
Definition dict_mem {V : Type} (d : dict V) (k : nat) : bool :=
  match dict_get d k with Some _ => true | None => false end.

(** [d[k] = v]: a key already present keeps its position. *)
Fixpoint dict_set {V : Type} (d : dict V) (k : nat) (v : V) : dict V :=
  match d with
  | [] => [(k, v)]
  | (k', v') :: d' =>
      if Nat.eqb k k' then (k, v) :: d' else (k', v') :: dict_set d' k v
  end.

(** [i in l] for a list of node indices *)
Definition mem (i : nat) (l : list nat) : bool := existsb (Nat.eqb i) l.

(** Node attributes: attribute name to value. *)
Definition attrs : Type := list (string * nat).

(** A [DiGraph]: the node dict and the successor adjacency
    ([G[u]] is the dict of the successors of [u] with their weight). *)
Record DiGraph : Type := mkG {
  node : dict attrs;
  succ : dict (dict Qc)
}.

Definition empty_graph : DiGraph := {| node := []; succ := [] |}.

(** [G.add_node(n, **attr)] *)
Definition add_node (g : DiGraph) (n : nat) (a : attrs) : DiGraph :=
  match dict_get (node g) n with
  | None => {| node := dict_set (node g) n a;
               succ := dict_set (succ g) n [] |}
  | Some old => {| node := dict_set (node g) n (a ++ old)%list;
                   succ := succ g |}
  end.

(** [G.add_nodes_from(pairs)] *)
Definition add_nodes_from (g : DiGraph) (l : list (nat * attrs)) : DiGraph :=
  fold_left (fun g '(n, a) => add_node g n a) l g.

(** [G.add_edge(u, v, weight=w)]: missing end points are added as
    nodes first. *)
Definition add_edge (g : DiGraph) (u v : nat) (w : Qc) : DiGraph :=
  let g1 := if dict_mem (node g) u then g else add_node g u [] in
  let g2 := if dict_mem (node g1) v then g1 else add_node g1 v [] in
  let adj_u := match dict_get (succ g2) u with Some a => a | None => [] end in
  {| node := node g2;
     succ := dict_set (succ g2) u (dict_set adj_u v w) |}.

(** [G.add_weighted_edges_from(triples)] *)
Definition add_weighted_edges_from (g : DiGraph)
           (l : list (nat * nat * Qc)) : DiGraph :=
  fold_left (fun g '(u, v, w) => add_edge g u v w) l g.

(** [iter(G[u])]: the successors of [u], in insertion order.  networkx
    raises [KeyError] when [u] is not a node of the graph; the model gives
    the empty list there, and is used only for searches that start at a
    node of the graph. *)
Definition neighbors (g : DiGraph) (u : nat) : list nat :=
  match dict_get (succ g) u with
  | Some a => keys a
  | None => []
  end.

(** [len(G)] *)
Definition order (g : DiGraph) : nat := length (node g).

(** [G.subgraph(nbunch)]: the subgraph induced on the nodes of
    [nbunch] that are in [G]. *)
Definition subgraph (g : DiGraph) (nbunch : list nat) : DiGraph :=
  {| node := filter (fun '(n, _) => mem n nbunch) (node g);
     succ := map (fun '(n, a) => (n, filter (fun '(v, _) => mem v nbunch) a))
                 (filter (fun '(n, _) => mem n nbunch) (succ g)) |}.

(** *** [dfs_edges(G, source)]

    The generator keeps a set [visited] and a [stack] of frames
    [(parent, depth_now, children)], [children] being an iterator over
    [G[parent]]; the top of the stack is the head of the list.  With
    [depth_limit=None] the limit is [len(G)]. *)
Record frame : Type := mkF {
  parent : nat;
  depth_now : nat;
  children : list nat
}.

Record dfs_state : Type := mkS {
  visited : list nat;
  stack : list frame;
  yielded : list (nat * nat)
}.

(** One turn of [while stack:]; [None] when the stack is empty. *)
Definition dfs_step (g : DiGraph) (st : dfs_state) : option dfs_state :=
  match stack st with
  | [] => None
  | f :: rest =>
      match children f with
      | [] =>
          (* StopIteration: stack.pop() *)
          Some {| visited := visited st; stack := rest;
                  yielded := yielded st |}
      | child :: more =>
          let f' := {| parent := parent f; depth_now := depth_now f;
                       children := more |} in
          if mem child (visited st) then
            Some {| visited := visited st; stack := f' :: rest;
                    yielded := yielded st |}
          else
            Some {| visited := child :: visited st;
                    stack :=
                      if Nat.ltb 1 (depth_now f)
                      then {| parent := child;
                              depth_now := depth_now f - 1;
                              children := neighbors g child |} :: f' :: rest
                      else f' :: rest;
                    yielded := (yielded st ++ [(parent f, child)])%list |}
      end
  end.

Fixpoint dfs_loop (fuel : nat) (g : DiGraph) (st : dfs_state) : dfs_state :=
  match fuel with
  | O => st
  | S fuel' =>
      match dfs_step g st with
      | None => st
      | Some st' => dfs_loop fuel' g st'
      end
  end.

(** Every node a search from [source] can meet: [source], the nodes
    that have an adjacency dict, and the targets of the edges. *)
Definition universe (g : DiGraph) (source : nat) : list nat :=
  nodup Nat.eq_dec
    (source :: keys (succ g) ++ flat_map (fun '(_, a) => keys a) (succ g)).

(** The cost of a node for the loop: one turn for each successor and
    one turn to pop its frame. *)
Definition weight (g : DiGraph) (v : nat) : nat :=
  S (length (neighbors g v)).

(** Number of turns that is enough for the loop to empty its stack
    (see [dfs_loop_completes]). *)
Definition dfs_fuel (g : DiGraph) (source : nat) : nat :=
  list_sum (map (weight g) (universe g source)).

Definition dfs_init (g : DiGraph) (source : nat) : dfs_state :=
  {| visited := [source];
     stack := [{| parent := source; depth_now := order g;
                  children := neighbors g source |}];
     yielded := [] |}.

Definition dfs_edges (g : DiGraph) (source : nat) : list (nat * nat) :=
  yielded (dfs_loop (dfs_fuel g source) g (dfs_init g source)).

(** [dfs_predecessors(G, source)]: [{t: s for s, t in dfs_edges(G, source)}] *)
Definition dfs_predecessors (g : DiGraph) (source : nat) : dict nat :=
  fold_left (fun d '(s, t) => dict_set d t s) (dfs_edges g source) [].

(** [dfs_successors(G, source)]: a [defaultdict(list)] [d] with
    [d[s].append(t)] for each edge [(s, t)] of [dfs_edges(G, source)]. *)
Definition dfs_successors (g : DiGraph) (source : nat) : dict (list nat) :=
  fold_left
    (fun d '(s, t) =>
       let old := match dict_get d s with Some l => l | None => [] end in
       dict_set d s (old ++ [t])%list)
    (dfs_edges g source) [].

End Nx.

Import Nx.

(* ------------------------------------------------------------------ *)
(** ** numpy helpers used by the class                                  *)
(* ------------------------------------------------------------------ *)

(** [range(n)] *)
Definition range (n : nat) : list nat := seq 0 n.

(** [a.argmax()]: the index of the first occurrence of the maximum;
    numpy raises [ValueError] on an empty array. *)
Fixpoint argmax_from (best_i : nat) (best : Qc) (i : nat) (l : list Qc) : nat :=
  match l with
  | [] => best_i
  | x :: l' =>
      if Qcltb best x then argmax_from i x (S i) l'
      else argmax_from best_i best (S i) l'
  end.

Definition argmax (l : list Qc) : result nat :=
  match l with
  | [] => Raise (ValueError "attempt to get argmax of an empty sequence" None)
  | x :: l' => Ok (argmax_from 0%nat x 1%nat l')
  end.

(** [np.ones(n, dtype=bool)] *)
Definition ones_bool (n : nat) : list bool := repeat true n.

(** [mask[i] = False] *)
Fixpoint clear_at (i : nat) (mask : list bool) : list bool :=
  match mask, i with
  | [], _ => []
  | _ :: m', O => false :: m'
  | b :: m', S i' => b :: clear_at i' m'
  end.

(** [mask[idx] = False] for a list [idx] of indices *)
Definition clear_all (idx : list nat) (mask : list bool) : list bool :=
  fold_left (fun m i => clear_at i m) idx mask.

(** [mask[i]] for an array of dtype bool: a numpy boolean scalar. *)
Definition mask_item (mask : list bool) (i : nat) : obj :=
  NpBool (nth i mask false).

(* ------------------------------------------------------------------ *)
(** ** The class [CSN]                                                  *)
(* ------------------------------------------------------------------ *)

(** The argument [counts] of [CSN.__init__], by the branch of the type
    dispatch it takes. *)
Inductive counts_arg : Type :=
| CountsList (l : list (list Qc))      (** [type(counts) is list] *)
| CountsNdarray (a : matrix)           (** [type(counts) is np.ndarray] *)
| CountsCoo (m : matrix)               (** a [coo_matrix] *)
| CountsOther (tocoo : option matrix). (** anything else: what
                                           [counts.tocoo()] returns, [None]
                                           when the call raises *)

(** [scipy.sparse.coo_matrix(l)] for a list of rows.  The empty list is
    a 1-D array of length 0, which scipy makes a 1 by 0 matrix; rows of
    different lengths are refused by numpy. *)
Definition coo_of_list (l : list (list Qc)) : result matrix :=
  match l with
  | [] => Ok {| shape := (1, 0)%nat; rows := [[]] |}
  | r :: l' =>
      if forallb (fun r' => Nat.eqb (length r') (length r)) l'
      then Ok {| shape := (length l, length r); rows := l |}
      else Raise (ValueError "inhomogeneous shape" None)
  end.

(** Lines 31-41: conversion of [counts] to coordinate form. *)
Definition to_coo (counts : counts_arg) : result matrix :=
  match counts with
  | CountsList l => coo_of_list l
  | CountsNdarray a => Ok a
  | CountsCoo m => Ok m
  | CountsOther (Some m) => Ok m
  | CountsOther None =>
      Raise (TypeError "Count matrix is of unsupported type: ")
  end.

(** The attributes [trim_graph] stores on the instance. *)
Record trimmed : Type := mkT {
  trim_indices : list nat;
  trim_graph : DiGraph;
  trim_countmat : matrix;
  trim_nnodes : nat;
  trim_transmat : matrix
}.

(** An instance of [CSN].  [symmetrize_flag] is the attribute
    [self.symmetrize]; [trim] holds the attributes of the last
    [trim_graph] call, [None] before the first one. *)
Record CSN : Type := mkCSN {
  countmat : matrix;
  symmetrize_flag : bool;
  nnodes : nat;
  transmat : matrix;
  graph : DiGraph;
  trim : option trimmed
}.

(** Calling a [bool]: [TypeError]. *)
Definition call_bool (f : bool) (arg : matrix) : result matrix :=
  Raise (TypeError "'bool' object is not callable").

(** [CSN.__init__(self, counts, symmetrize=False)].  Inside the body the
    name [symmetrize] is the parameter, not the module-level function:
    line 48, [symmetrize(self.countmat)], calls the parameter. *)
Definition CSN_init (counts : counts_arg) (symmetrize : bool) : result CSN :=
  countmat0 <- to_coo counts ;;
  if negb (Nat.eqb (nrows countmat0) (ncols countmat0)) then
    Raise (ValueError "Count matrix is not square: " (Some (shape countmat0)))
  else
    let self_symmetrize := symmetrize in
    countmat1 <- (if self_symmetrize then call_bool symmetrize countmat0
                  else Ok countmat0) ;;
    let nnodes1 := nrows countmat1 in
    let transmat1 := count_to_trans countmat1 in
    let labels := map (fun i => [("ID"%string, i)]) (range nnodes1) in
    let g0 := add_nodes_from empty_graph (combine (range nnodes1) labels) in
    let g1 := add_weighted_edges_from g0 (coo_triples transmat1) in
    Ok {| countmat := countmat1;
          symmetrize_flag := self_symmetrize;
          nnodes := nnodes1;
          transmat := transmat1;
          graph := g1;
          trim := None |}.

(** Lines 98-108 of [trim_graph]: the mask, given the most-sampled node
    and the row totals computed at lines 94-95. *)
Definition trim_mask (self : CSN) (msn : nat) (totcounts : list Qc)
           (by_inflow by_outflow : bool) (min_count : Qc) : list bool :=
  let mask0 := ones_bool (nnodes self) in
  let mask1 :=
    if by_outflow then
      let downstream := keys (dfs_predecessors (graph self) msn) in
      clear_all (filter (fun i => negb (mem i downstream))
                        (range (nnodes self))) mask0
    else mask0 in
  let mask2 :=
    if by_inflow then
      let upstream := keys (dfs_successors (graph self) msn) in
      clear_all (filter (fun i => negb (mem i upstream))
                        (range (nnodes self))) mask1
    else mask1 in
  if Qcltb 0 min_count then
    clear_all (filter (fun i => Qcleb min_count (nth i totcounts 0))
                      (range (nnodes self))) mask2
  else mask2.

(** The body of the method [CSN.trim_graph] (lines 94-119), as the
    function of the class. *)
Definition CSN_trim_graph (self : CSN) (by_inflow by_outflow : bool)
           (min_count : Qc) : result CSN :=
  let totcounts := sum_axis1 (rows (countmat self)) in
  msn <- argmax totcounts ;;
  let mask := trim_mask self msn totcounts by_inflow by_outflow min_count in
  let indices :=
    filter (fun i => is_ (mask_item mask i) PyTrue) (range (nnodes self)) in
  let sub := subgraph (graph self) indices in
  tmp_arr <- submatrix mask (countmat self) ;;
  countmat' <- (if symmetrize_flag self then symmetrize tmp_arr
                else Ok tmp_arr) ;;
  Ok {| countmat := countmat self;
        symmetrize_flag := symmetrize_flag self;
        nnodes := nnodes self;
        transmat := transmat self;
        graph := graph self;
        trim := Some {| trim_indices := indices;
                        trim_graph := sub;
                        trim_countmat := countmat';
                        trim_nnodes := nrows countmat';
                        trim_transmat := count_to_trans countmat' |} |}.

(** The call [self.trim_graph(...)] on an instance.  Attribute lookup
    finds an entry of the instance before a function of the class: once
    line 111 has stored the subgraph under the name [trim_graph], the
    name is the graph, and calling a graph raises [TypeError]. *)
Definition call_trim_graph (self : CSN) (by_inflow by_outflow : bool)
           (min_count : Qc) : result CSN :=
  match trim self with
  | None => CSN_trim_graph self by_inflow by_outflow min_count
  | Some _ => Raise (TypeError "'DiGraph' object is not callable")
  end.

(** Nodes from which [target] can be reached along directed edges, and
    nodes reachable from [source]: the reading of "connected by inflow"
    and "connected by outflow" the filters are documented with. *)
Inductive reaches (g : DiGraph) : nat -> nat -> Prop :=
| reaches_refl (u : nat) : reaches g u u
| reaches_step (u v w : nat) :
    In v (neighbors g u) -> reaches g v w -> reaches g u w.

(* ------------------------------------------------------------------ *)
(** ** Sample inputs                                                    *)
(* ------------------------------------------------------------------ *)

Definition qrows (l : list (list Z)) : list (list Qc) := map (map qz) l.

(** [[[0,5,0],[0,0,5],[5,0,0]]]: a 3-cycle *)
Definition cycle3 : counts_arg := CountsList (qrows [[0; 5; 0]; [0; 0; 5]; [5; 0; 0]]%Z).

(** [[[1]]] *)
Definition single : counts_arg := CountsList (qrows [[1]]%Z).

(** [[[5,0],[0,1]]] *)
Definition two_diag : counts_arg := CountsList (qrows [[5; 0]; [0; 1]]%Z).

(** [[[5,0],[1,0]]]: node 1 has an edge to node 0 *)
Definition into_msn : counts_arg := CountsList (qrows [[5; 0]; [1; 0]]%Z).

(** [[[0,1,2],[3,4,5]]]: 2 by 3 *)
Definition two_by_three : counts_arg :=
  CountsList (qrows [[0; 1; 2]; [3; 4; 5]]%Z).

(** [np.zeros((0, 0))] *)
Definition empty00 : counts_arg :=
  CountsNdarray {| shape := (0, 0)%nat; rows := [] |}.

(** Chains two method calls on a constructed instance. *)
Definition then_trim (r : result CSN) (by_inflow by_outflow : bool)
           (min_count : Qc) : result CSN :=
  self <- r ;; call_trim_graph self by_inflow by_outflow min_count.

(** Observations on the outcome of a call. *)
Definition view {A : Type} (f : trimmed -> A) (r : result CSN)
  : option A :=
  match r with
  | Ok self => option_map f (trim self)
  | Raise _ => None
  end.

(** What the loop of [count_to_trans] does to one row (see
    [count_to_trans_rows]). *)
Definition norm_row (r : list Qc) : list Qc :=
  if Qcltb 0 (row_sum r) then div_row r (row_sum r) else r.

(** [[[10,0],[0,0]]] as a coordinate matrix *)
Definition ten_zero : matrix :=
  {| shape := (2, 2)%nat; rows := qrows [[10; 0]; [0; 0]]%Z |}.

(** [[[0,2],[4,6]]] as a coordinate matrix *)
Definition asym : matrix :=
  {| shape := (2, 2)%nat; rows := qrows [[0; 2]; [4; 6]]%Z |}.

(** The graph of a constructed instance (the empty graph when the
    construction raised). *)
Definition graph_of (r : result CSN) : DiGraph :=
  match r with
  | Ok self => graph self
  | Raise _ => empty_graph
  end.

(** The most-sampled node [trim_graph] computes on a constructed
    instance. *)
Definition msn_of (r : result CSN) : result nat :=
  self <- r ;; argmax (sum_axis1 (rows (countmat self))).

(** The entries of a matrix as plain fractions. *)
Definition entries (m : matrix) : list (list Q) := map (map this) (rows m).

(** *** Termination measure of the search loop *)

(** Nodes of the universe not yet visited. *)
Definition unvisited (g : DiGraph) (source : nat) (vis : list nat) : list nat :=
  filter (fun v => negb (mem v vis)) (universe g source).

(** Turns left: for each frame its pending children and its pop, and
    for each unvisited node its whole frame. *)
Definition turns_left (g : DiGraph) (source : nat) (st : dfs_state) : nat :=
  (list_sum (map (fun f => S (length (children f))) (stack st))
   + list_sum (map (weight g) (unvisited g source (visited st))))%nat.

(** Every pending child is a node of the universe. *)
Definition frames_ok (g : DiGraph) (source : nat) (st : dfs_state) : Prop :=
  Forall (fun f => incl (children f) (universe g source)) (stack st).

(** Invariant of the search loop: the source stays visited, and no
    yielded edge points at it. *)
Definition source_kept (source : nat) (st : dfs_state) : Prop :=
  In source (visited st) /\
  Forall (fun e : nat * nat => snd e <> source) (yielded st).

(* ------------------------------------------------------------------ *)
(** ** Further notions used in the statements below                     *)
(* ------------------------------------------------------------------ *)

(** A matrix is symmetric when [m[i, j] = m[j, i]] everywhere. *)
Definition symmetric (m : matrix) : Prop :=
  forall i j : nat, get m i j = get m j i.

(** [G[u]] as a dict, empty when [u] has no adjacency entry. *)
Definition adj (g : DiGraph) (u : nat) : dict Qc :=
  match dict_get (succ g) u with Some a => a | None => [] end.

(** The pairs (target, weight) of the triples that leave [u], in the
    order of the list. *)
Definition out_edges (u : nat) (l : list (nat * nat * Qc)) : list (nat * Qc) :=
  flat_map (fun '(u', v, w) => if Nat.eqb u' u then [(v, w)] else []) l.

(** The non-zero entries of a row with their column, in column order. *)
Definition nonzero_entries (r : list Qc) : list (nat * Qc) :=
  filter (fun '(_, x) => negb (Qceqb x 0)) (enumerate r).

(** The node dict [__init__] builds for [n] nodes. *)
Definition id_nodes (n : nat) : dict attrs :=
  map (fun i => (i, [("ID"%string, i)])) (range n).

(** What [trim_graph] relies on when it reads an instance: the count
    matrix is a well-formed square array and [nnodes] is its dimension.
    The constructor establishes it and [trim_graph] keeps it. *)
Definition consistent (self : CSN) : Prop :=
  wf (countmat self) /\
  nnodes self = nrows (countmat self) /\
  nnodes self = ncols (countmat self).

(** The matrix [a[mask, ...][..., mask]] when the mask fits. *)
Definition cut (mask : list bool) (m : matrix) : matrix :=
  {| shape := (count_true mask, count_true mask);
     rows := map (select mask) (select mask (rows m)) |}.

(** The instance [CSN([[0,5,0],[0,0,5],[5,0,0]])]. *)
Definition cycle3_csn : CSN :=
  match CSN_init cycle3 false with
  | Ok self => self
  | Raise _ =>
      {| countmat := build 0 0 (fun _ _ => 0); symmetrize_flag := false;
         nnodes := 0; transmat := build 0 0 (fun _ _ => 0);
         graph := empty_graph; trim := None |}
  end.

(** The instance [CSN(np.zeros((0, 0)))]. *)
Definition empty_csn : CSN :=
  match CSN_init empty00 false with
  | Ok self => self
  | Raise _ =>
      {| countmat := build 0 0 (fun _ _ => 0); symmetrize_flag := false;
         nnodes := 0; transmat := build 0 0 (fun _ _ => 0);
         graph := empty_graph; trim := None |}
  end.

(** Invariant of the search loop for soundness: what is visited, on the
    stack or yielded is reachable from the source, and every yielded pair
    is an edge of the graph. *)
Definition dfs_sound (g : DiGraph) (source : nat) (st : dfs_state) : Prop :=
  (forall v, In v (visited st) -> reaches g source v) /\
  Forall (fun f => reaches g source (parent f) /\
                   incl (children f) (neighbors g (parent f))) (stack st) /\
  Forall (fun e : nat * nat => reaches g source (fst e) /\
                               In (snd e) (neighbors g (fst e))) (yielded st).

(** Every edge of the graph ends at a node of the graph. *)
Definition graph_closed (g : DiGraph) : Prop :=
  forall u v : nat, In v (neighbors g u) -> In v (keys (node g)).

(** The depth limits on the stack count down from [n] at the bottom. *)
Fixpoint depth_ok (n : nat) (stk : list frame) : Prop :=
  match stk with
  | [] => True
  | f :: rest => (depth_now f + length rest = n)%nat /\ depth_ok n rest
  end.

(** Invariant of the search loop for completeness. *)
Definition dfs_progress (g : DiGraph) (source : nat) (st : dfs_state) : Prop :=
  In source (visited st) /\
  incl (visited st) (keys (node g)) /\
  Forall (fun f => In (parent f) (visited st) /\
                   incl (children f) (neighbors g (parent f))) (stack st) /\
  NoDup (map parent (stack st)) /\
  depth_ok (order g) (stack st) /\
  (forall v, In v (visited st) ->
     (forall w, In w (neighbors g v) -> In w (visited st)) \/
     exists f, In f (stack st) /\ parent f = v /\
               forall w, In w (neighbors g v) ->
                         In w (visited st) \/ In w (children f)) /\
  (forall v, In v (visited st) ->
     v = source \/ In v (map snd (yielded st))).

(* ------------------------------------------------------------------ *)
(** ** [count_to_trans] in float64                                      *)
(* ------------------------------------------------------------------ *)

(** The body of [count_to_trans] over any number type: [sum] is the sum
    of a row ([tmp.sum(axis=1)]), [divide] the division of [tmp[i] /= c]
    and [positive] the test [c > 0]. *)
Section AnyArithmetic.

Variable T : Type.
Variable sum : list T -> T.
Variable divide : T -> T -> T.
Variable positive : T -> bool.

Definition div_row_of (r : list T) (c : T) : list T :=
  map (fun x => divide x c) r.

Fixpoint set_row_of (i : nat) (r : list T) (a : list (list T))
  : list (list T) :=
  match a, i with
  | [], _ => []
  | _ :: a', O => r :: a'
  | x :: a', S i' => x :: set_row_of i' r a'
  end.

Definition count_to_trans_step_of (tmp : list (list T)) (ic : nat * T)
  : list (list T) :=
  let '(i, c) := ic in
  if positive c then set_row_of i (div_row_of (nth i tmp []) c) tmp else tmp.

Definition count_to_trans_of (tmp : list (list T)) : list (list T) :=
  let colsums := map sum tmp in
  fold_left count_to_trans_step_of (enumerate colsums) tmp.

End AnyArithmetic.

(** The instance at IEEE 754 binary64, the arithmetic of the array
    [np.array(countmat.toarray(), dtype=float)] the function works on. *)
Module F64.

Import PrimFloat.

Record matrix : Type := mk {
  shape : nat * nat;
  rows : list (list float)
}.

(** [tmp.sum(axis=1)] for one row: numpy adds the entries from left to
    right in rows of fewer than 8 entries. *)
Definition row_sum (r : list float) : float :=
  fold_left PrimFloat.add r 0%float.

(** [c > 0] *)
Definition positive (c : float) : bool := PrimFloat.ltb 0%float c.

Definition nonneg (m : matrix) : bool :=
  forallb (forallb (fun x => PrimFloat.leb 0%float x)) (rows m).

Definition count_to_trans (countmat : matrix) : matrix :=
  {| shape := shape countmat;
     rows := count_to_trans_of float row_sum PrimFloat.div positive
                               (rows countmat) |}.


(** [[[1, 4, 1], [0, 0, 0], [0, 0, 0]]] *)
Definition sixths : matrix :=
  {| shape := (3, 3)%nat;
     rows := [[1; 4; 1]; [0; 0; 0]; [0; 0; 0]]%float |}.

End F64.

(* ------------------------------------------------------------------ *)
(** ** Facts on numbers and rows                                        *)
(* ------------------------------------------------------------------ *)

Lemma Qcltb_spec (a b : Qc) : Qcltb a b = true <-> a < b.
Proof.
  unfold Qcltb. rewrite Qclt_alt.
  destruct (a ?= b); split; congruence.
Qed.

Lemma Qcleb_spec (a b : Qc) : Qcleb a b = true <-> a <= b.
Proof.
  unfold Qcleb. rewrite Qcle_alt.
  destruct (a ?= b); split; congruence.
Qed.

Lemma Qceqb_spec (a b : Qc) : Qceqb a b = true <-> a = b.
Proof.
  unfold Qceqb. rewrite Qceq_alt.
  destruct (a ?= b); split; congruence.
Qed.

Lemma Qcleb_negb_ltb (a b : Qc) : Qcleb a b = negb (Qcltb b a).
Proof.
  destruct (Qclt_le_dec b a) as [Hlt|Hle].
  - assert (H1 : Qcltb b a = true) by now apply Qcltb_spec.
    rewrite H1. simpl.
    destruct (Qcleb a b) eqn:H2; [|reflexivity].
    apply Qcleb_spec in H2. now apply Qclt_not_le in Hlt.
  - assert (H1 : Qcleb a b = true) by now apply Qcleb_spec.
    rewrite H1.
    destruct (Qcltb b a) eqn:H2; [|reflexivity].
    apply Qcltb_spec in H2. now apply Qcle_not_lt in Hle.
Qed.

(** In exact arithmetic the sum of a divided row is the divided sum. *)
Lemma row_sum_div (r : list Qc) (c : Qc) :
  row_sum (div_row r c) = row_sum r / c.
Proof.
  induction r as [|x r IH]; simpl.
  - unfold Qcdiv. ring.
  - rewrite IH. unfold Qcdiv. ring.
Qed.



(** In exact arithmetic a row divided by its positive sum sums to 1; in
    float64 this holds up to rounding only, and fails when the sum
    overflows. *)
Lemma row_sum_normalized (r : list Qc) :
  0 < row_sum r -> row_sum (div_row r (row_sum r)) = 1.
Proof.
  intros Hpos. rewrite row_sum_div. unfold Qcdiv.
  apply Qcmult_inv_r. intros E. rewrite E in Hpos.
  exact (Qclt_not_eq _ _ Hpos eq_refl).
Qed.

(* ------------------------------------------------------------------ *)
(** ** The loop of [count_to_trans]                                     *)
(* ------------------------------------------------------------------ *)

Lemma set_row_middle (pre : list (list Qc)) (r v : list Qc)
      (post : list (list Qc)) :
  set_row (length pre) v (pre ++ r :: post) = pre ++ v :: post.
Proof.
  induction pre as [|p pre IH]; simpl; [reflexivity | now rewrite IH].
Qed.

Lemma count_to_trans_loop (rs pre : list (list Qc)) :
  fold_left count_to_trans_step
            (combine (seq (length pre) (length rs)) (map row_sum rs))
            (pre ++ rs)
  = pre ++ map norm_row rs.
Proof.
  revert pre. induction rs as [|r rs IH]; intros pre; simpl.
  - reflexivity.
  - rewrite nth_middle, set_row_middle.
    replace (if Qcltb 0 (row_sum r)
             then pre ++ div_row r (row_sum r) :: rs
             else pre ++ r :: rs)
      with ((pre ++ [norm_row r]) ++ rs).
    + specialize (IH (pre ++ [norm_row r])).
      rewrite length_app, Nat.add_1_r in IH. rewrite IH.
      now rewrite <- app_assoc.
    + rewrite <- app_assoc. unfold norm_row.
      now destruct (Qcltb 0 (row_sum r)).
Qed.

Lemma count_to_trans_rows (m : matrix) :
  rows (count_to_trans m) = map norm_row (rows m).
Proof.
  unfold count_to_trans, enumerate, sum_axis1; simpl.
  rewrite length_map.
  exact (count_to_trans_loop (rows m) []).
Qed.

Lemma norm_row_length (r : list Qc) : length (norm_row r) = length r.
Proof.
  unfold norm_row, div_row. destruct (Qcltb 0 (row_sum r)); [apply length_map | reflexivity].
Qed.

Lemma count_to_trans_wf (m : matrix) : wf m -> wf (count_to_trans m).
Proof.
  intros [Hr Hc]. unfold wf, nrows, ncols.
  rewrite count_to_trans_rows, length_map. split; [exact Hr|].
  apply Forall_map. eapply Forall_impl; [|exact Hc].
  intros r Hlen. now rewrite norm_row_length.
Qed.



(* ------------------------------------------------------------------ *)
(** ** Symmetrization                                                   *)
(* ------------------------------------------------------------------ *)

Lemma build_ext (r c : nat) (f g : nat -> nat -> Qc) :
  (forall i j, (i < r)%nat -> (j < c)%nat -> f i j = g i j) ->
  build r c f = build r c g.
Proof.
  intros H. unfold build. f_equal.
  apply map_ext_in. intros i Hi. apply in_seq in Hi.
  apply map_ext_in. intros j Hj. apply in_seq in Hj.
  apply H; lia.
Qed.

Lemma get_build (r c : nat) (f : nat -> nat -> Qc) (i j : nat) :
  (i < r)%nat -> (j < c)%nat -> get (build r c f) i j = f i j.
Proof.
  intros Hi Hj. unfold get, build; simpl.
  rewrite (nth_indep _ [] (map (f 0%nat) (seq 0 c)))
    by (rewrite length_map, length_seq; exact Hi).
  rewrite (map_nth (fun i => map (f i) (seq 0 c)) (seq 0 r) 0%nat i).
  rewrite seq_nth by exact Hi. simpl.
  rewrite (nth_indep _ 0 (f i 0%nat))
    by (rewrite length_map, length_seq; exact Hj).
  rewrite (map_nth (f i) (seq 0 c) 0%nat j).
  rewrite seq_nth by exact Hj. reflexivity.
Qed.

Lemma build_wf (r c : nat) (f : nat -> nat -> Qc) : wf (build r c f).
Proof.
  unfold wf, build, nrows, ncols; simpl. split.
  - now rewrite length_map, length_seq.
  - apply Forall_map. apply Forall_forall. intros i _.
    now rewrite length_map, length_seq.
Qed.

(** On a square matrix [symmetrize] returns the matrix of the
    half-sums [0.5*(m[i,j] + m[j,i])]. *)
Lemma symmetrize_square (m : matrix) :
  nrows m = ncols m ->
  symmetrize m
  = Ok (build (nrows m) (nrows m)
              (fun i j => half * (get m i j + get m j i))).
Proof.
  intros Hsq. unfold symmetrize, add, transpose, scale.
  unfold nrows at 2, ncols at 3. simpl.
  rewrite <- Hsq, Nat.eqb_refl. simpl.
  unfold nrows at 1 2, ncols at 1. simpl. f_equal.
  apply build_ext. intros i j Hi Hj.
  rewrite get_build by assumption. f_equal. f_equal.
  now rewrite get_build.
Qed.

Lemma half_half (a b : Qc) :
  half * (half * (a + b) + half * (b + a)) = half * (a + b).
Proof.
  assert (H : half + half = 1) by (apply Qc_is_canon; reflexivity).
  transitivity ((half + half) * (half * (a + b))); [ring|].
  rewrite H. ring.
Qed.

(** C10.  [symmetrize] is idempotent on square matrices: the call
    returns a matrix, and the call on that matrix returns it again. *)
Theorem symmetrize_idempotent (m : matrix) :
  nrows m = ncols m ->
  exists s : matrix, symmetrize m = Ok s /\ symmetrize s = Ok s.
Proof.
  intros Hsq. eexists. split; [now apply symmetrize_square|].
  rewrite symmetrize_square by reflexivity.
  unfold nrows at 1 2; simpl. f_equal.
  apply build_ext. intros i j Hi Hj.
  rewrite !get_build by assumption. apply half_half.
Qed.

Lemma symmetrize_idempotent_witness :
  nrows asym = ncols asym /\
  exists s : matrix, symmetrize asym = Ok s /\ symmetrize s = Ok s.
Proof.
  split; [reflexivity|].
  apply (symmetrize_idempotent asym). reflexivity.
Defined.

(* ------------------------------------------------------------------ *)
(** ** The depth-first search terminates                                *)
(* ------------------------------------------------------------------ *)

Lemma mem_true_iff (i : nat) (l : list nat) : mem i l = true <-> In i l.
Proof.
  unfold mem. rewrite existsb_exists. split.
  - intros [x [Hx Heq]]. apply Nat.eqb_eq in Heq. now subst.
  - intros H. exists i. split; [exact H | apply Nat.eqb_refl].
Qed.

Section DfsTermination.

Variable g : DiGraph.
Variable source : nat.

Lemma dict_get_In {V : Type} (d : dict V) (k : nat) (v : V) :
  dict_get d k = Some v -> In (k, v) d.
Proof.
  induction d as [|[k' v'] d IH]; simpl; [discriminate|].
  destruct (Nat.eqb_spec k k') as [->|Hne].
  - intros [= ->]. now left.
  - intros H. right. now apply IH.
Qed.

Lemma neighbors_in_universe (u v : nat) :
  In v (neighbors g u) -> In v (universe g source).
Proof.
  unfold neighbors, universe. intros Hv. apply nodup_In. right.
  apply in_or_app. right.
  destruct (dict_get (succ g) u) as [a|] eqn:Ha; [|contradiction].
  apply in_flat_map. exists (u, a). split; [|exact Hv].
  now apply dict_get_In.
Qed.

Lemma mem_cons (v c : nat) (vis : list nat) :
  mem v (c :: vis) = (Nat.eqb v c || mem v vis)%bool.
Proof. reflexivity. Qed.

Local Arguments mem : simpl never.

Lemma visit_mono (w : nat -> nat) (c : nat) (vis l : list nat) :
  (list_sum (map w (filter (fun v => negb (mem v (c :: vis))) l))
   <= list_sum (map w (filter (fun v => negb (mem v vis)) l)))%nat.
Proof.
  induction l as [|x l IH]; simpl; [lia|].
  rewrite mem_cons.
  destruct (Nat.eqb x c), (mem x vis); simpl; lia.
Qed.

(** Visiting a node of the universe frees at least its weight. *)
Lemma visit_frees (w : nat -> nat) (c : nat) (vis l : list nat) :
  In c l -> mem c vis = false ->
  (list_sum (map w (filter (fun v => negb (mem v (c :: vis))) l)) + w c
   <= list_sum (map w (filter (fun v => negb (mem v vis)) l)))%nat.
Proof.
  intros Hin Hc.
  induction l as [|x l IH]; [contradiction|].
  simpl. rewrite mem_cons.
  destruct (Nat.eqb_spec x c) as [->|Hne]; simpl.
  - rewrite Hc. simpl. pose proof (visit_mono w c vis l). lia.
  - destruct Hin as [->|Hin]; [contradiction|].
    specialize (IH Hin). destruct (mem x vis); simpl; lia.
Qed.

Lemma dfs_step_decreases (st st' : dfs_state) :
  frames_ok g source st ->
  dfs_step g st = Some st' ->
  (turns_left g source st' < turns_left g source st)%nat /\
  frames_ok g source st'.
Proof.
  unfold dfs_step, turns_left, frames_ok, unvisited.
  destruct st as [vis stk out]; simpl.
  destruct stk as [|[p d ch] rest]; [discriminate|].
  intros Hok. inversion Hok as [|? ? Hch Hrest]; subst. simpl in *.
  destruct ch as [|child more].
  - intros [= <-]. simpl. split; [lia | exact Hrest].
  - assert (Hmore : incl more (universe g source)).
    { intros x Hx. apply Hch. now right. }
    assert (Hchild : In child (universe g source)).
    { apply Hch. now left. }
    destruct (mem child vis) eqn:Hvis.
    + intros [= <-]. simpl. split; [lia|].
      constructor; assumption.
    + pose proof (visit_frees (weight g) child vis
                              (universe g source) Hchild Hvis) as Hfree.
      unfold weight in Hfree at 2.
      destruct (Nat.ltb 1 d); intros [= <-]; simpl.
      * split; [lia|].
        constructor; [|constructor; assumption].
        simpl. intros x Hx. eapply neighbors_in_universe; eassumption.
      * split; [lia|]. constructor; assumption.
Qed.

Lemma dfs_loop_empties (fuel : nat) :
  forall st : dfs_state,
    frames_ok g source st ->
    (turns_left g source st <= fuel)%nat ->
    stack (dfs_loop fuel g st) = [].
Proof.
  induction fuel as [|fuel IH]; intros st Hok Hle; simpl.
  - unfold turns_left in Hle. destruct (stack st); [reflexivity|].
    simpl in Hle. lia.
  - destruct (dfs_step g st) as [st'|] eqn:Hstep.
    + destruct (dfs_step_decreases st st' Hok Hstep) as [Hlt Hok'].
      apply IH; [exact Hok' | lia].
    + unfold dfs_step in Hstep. destruct (stack st) as [|f rest]; [reflexivity|].
      destruct (children f); [discriminate|].
      destruct (mem _ _); discriminate.
Qed.

Lemma dfs_init_turns :
  (turns_left g source (dfs_init g source) <= dfs_fuel g source)%nat.
Proof.
  unfold turns_left, dfs_init, dfs_fuel, unvisited; simpl.
  assert (Hsrc : In source (universe g source)).
  { unfold universe. apply nodup_In. now left. }
  pose proof (visit_frees (weight g) source [] (universe g source)
                          Hsrc eq_refl) as H.
  unfold weight in H at 2.
  assert (Hall : filter (fun v => negb (mem v [])) (universe g source)
                 = universe g source).
  { clear. induction (universe g source) as [|x l IH]; [reflexivity|].
    simpl. change (mem x []) with false. simpl. f_equal. exact IH. }
  rewrite Hall in H. lia.
Qed.

(** The fuel [dfs_edges] gives the loop is enough: the loop ends with
    an empty stack, as [while stack:] does. *)
Lemma dfs_loop_completes :
  stack (dfs_loop (dfs_fuel g source) g (dfs_init g source)) = [].
Proof.
  apply dfs_loop_empties; [|apply dfs_init_turns].
  unfold frames_ok, dfs_init; simpl. constructor; [|constructor].
  simpl. intros x Hx. eapply neighbors_in_universe; eassumption.
Qed.

End DfsTermination.

(* ------------------------------------------------------------------ *)
(** ** The source of a search is never a key of [dfs_predecessors]      *)
(* ------------------------------------------------------------------ *)

Section DfsSource.

Variable g : DiGraph.
Variable source : nat.

Lemma dfs_step_source_kept (st st' : dfs_state) :
  source_kept source st -> dfs_step g st = Some st' ->
  source_kept source st'.
Proof.
  unfold dfs_step, source_kept. intros [Hvis Hout].
  destruct (stack st) as [|f rest]; [discriminate|].
  destruct (children f) as [|child more].
  - intros [= <-]. simpl. now split.
  - destruct (mem child (visited st)) eqn:Hmem; intros [= <-]; simpl.
    + now split.
    + split; [now right|].
      apply Forall_app. split; [exact Hout|].
      constructor; [|constructor]. simpl. intros ->.
      apply (mem_true_iff source (visited st)) in Hvis. congruence.
Qed.

Lemma dfs_loop_source_kept (fuel : nat) :
  forall st : dfs_state,
    source_kept source st -> source_kept source (dfs_loop fuel g st).
Proof.
  induction fuel as [|fuel IH]; intros st Hst; simpl; [exact Hst|].
  destruct (dfs_step g st) as [st'|] eqn:Hstep; [|exact Hst].
  apply IH. eapply dfs_step_source_kept; eassumption.
Qed.

Lemma dfs_edges_targets :
  Forall (fun e : nat * nat => snd e <> source) (dfs_edges g source).
Proof.
  unfold dfs_edges. apply dfs_loop_source_kept.
  split; simpl; [now left | constructor].
Qed.

Lemma keys_dict_set {V : Type} (d : dict V) (k x : nat) (v : V) :
  In x (keys (dict_set d k v)) -> x = k \/ In x (keys d).
Proof.
  induction d as [|[k' v'] d IH]; simpl.
  - intros [->|[]]. now left.
  - destruct (Nat.eqb_spec k k') as [->|Hne]; simpl.
    + intros [->|H]; [now left | right; now right].
    + intros [->|H]; [right; now left|].
      destruct (IH H) as [->|H']; [now left | right; now right].
Qed.

Lemma dfs_predecessors_keys (x : nat) :
  In x (keys (dfs_predecessors g source)) ->
  In x (map snd (dfs_edges g source)).
Proof.
  unfold dfs_predecessors.
  assert (Hgen : forall (es : list (nat * nat)) (d : dict nat),
    In x (keys (fold_left (fun d '(s, t) => dict_set d t s) es d)) ->
    In x (keys d) \/ In x (map snd es)).
  { induction es as [|[s t] es IH]; intros d; simpl; [now left|].
    intros H. destruct (IH _ H) as [H'|H']; [|right; now right].
    destruct (keys_dict_set _ _ _ _ H') as [->|H'']; [right; now left | now left]. }
  intros H. destruct (Hgen _ _ H) as [[]|H']. exact H'.
Qed.

(** The node the search starts from is the child of no tree edge, so it
    is not among the keys: with [by_outflow] the list [downstream] of
    line 100 never holds the most-sampled node. *)
Lemma dfs_predecessors_no_source :
  mem source (keys (dfs_predecessors g source)) = false.
Proof.
  destruct (mem source (keys (dfs_predecessors g source))) eqn:Hmem;
    [|reflexivity].
  apply mem_true_iff in Hmem. apply dfs_predecessors_keys in Hmem.
  apply in_map_iff in Hmem. destruct Hmem as [e [He Hin]].
  pose proof dfs_edges_targets as Hall. rewrite Forall_forall in Hall.
  now destruct (Hall e Hin).
Qed.

End DfsSource.

Example symmetrize_asym :
  option_map entries (match symmetrize asym with Ok s => Some s | Raise _ => None end)
  = Some [[0; 3]; [3; 6]]%Q.
Proof. vm_compute. reflexivity. Qed.

Example count_to_trans_cycle3 :
  entries (count_to_trans
             {| shape := (3, 3)%nat;
                rows := qrows [[0; 5; 0]; [0; 0; 5]; [5; 0; 0]]%Z |})
  = [[0; 1; 0]; [0; 0; 1]; [1; 0; 0]]%Q.
Proof. vm_compute. reflexivity. Qed.

(* ------------------------------------------------------------------ *)
(** ** Construction                                                     *)
(* ------------------------------------------------------------------ *)

(** C9.  When the input converts to a coordinate matrix whose two
    dimensions differ, the constructor raises, whatever the symmetrize
    flag, the [ValueError] that carries the shape; no instance is
    returned. *)
Theorem CSN_init_not_square (counts : counts_arg) (symmetrize : bool)
        (m : matrix) :
  to_coo counts = Ok m ->
  nrows m <> ncols m ->
  CSN_init counts symmetrize
  = Raise (ValueError "Count matrix is not square: " (Some (shape m))).
Proof.
  intros Hconv Hne. unfold CSN_init. rewrite Hconv. simpl.
  apply Nat.eqb_neq in Hne. rewrite Hne. reflexivity.
Qed.

Lemma CSN_init_not_square_witness :
  CSN_init two_by_three false
  = Raise (ValueError "Count matrix is not square: " (Some (2, 3)%nat)).
Proof.
  apply (CSN_init_not_square two_by_three false
           {| shape := (2, 3)%nat; rows := qrows [[0; 1; 2]; [3; 4; 5]]%Z |}).
  - reflexivity.
  - unfold nrows, ncols; simpl; lia.
Defined.

(** With the flag set the constructor never returns an instance: a
    non-square input raises at line 44, any other at line 48. *)
Lemma CSN_init_symmetrize_never_ok (counts : counts_arg) :
  is_ok (CSN_init counts true) = false.
Proof.
  unfold CSN_init. destruct (to_coo counts) as [m|e]; simpl; [|reflexivity].
  destruct (Nat.eqb (nrows m) (ncols m)); reflexivity.
Qed.

(** C2, at the matrix [[0,2],[4,6]]: the module-level function returns
    the half-sum [[0,3],[3,6]], but the constructor called with the flag
    set raises [TypeError] at line 48, and without the flag it returns an
    instance. *)
Theorem CSN_init_symmetrize_raises :
  CSN_init (CountsCoo asym) true
  = Raise (TypeError "'bool' object is not callable") /\
  is_ok (CSN_init (CountsCoo asym) false) = true /\
  option_map entries
    (match symmetrize asym with Ok s => Some s | Raise _ => None end)
  = Some [[0; 3]; [3; 6]]%Q.
Proof. repeat split; vm_compute; reflexivity. Qed.

(* ------------------------------------------------------------------ *)
(** ** Trimming                                                         *)
(* ------------------------------------------------------------------ *)

(** Line 110 compares a numpy boolean with [True] by identity: no index
    passes the test. *)
Lemma mask_item_is_not_True (mask : list bool) (l : list nat) :
  filter (fun i => is_ (mask_item mask i) PyTrue) l = [].
Proof. induction l as [|i l IH]; simpl; [reflexivity | exact IH]. Qed.

(** Whatever the filters, a call of [trim_graph] that returns has stored
    the empty list as [trim_indices]. *)
Lemma trim_indices_empty (self self' : CSN) (by_inflow by_outflow : bool)
      (min_count : Qc) :
  CSN_trim_graph self by_inflow by_outflow min_count = Ok self' ->
  option_map trim_indices (trim self') = Some [].
Proof.
  unfold CSN_trim_graph. cbv zeta. intros H.
  destruct (argmax _) as [msn|e]; [|discriminate].
  unfold bind at 1 in H. rewrite mask_item_is_not_True in H.
  destruct (submatrix _ _) as [tmp|e]; [|discriminate].
  unfold bind at 1 in H.
  destruct (if symmetrize_flag self then symmetrize tmp else Ok tmp)
    as [cm|e]; simpl in H; [|discriminate].
  inversion H; subst; reflexivity.
Qed.

(** *** What the mask of lines 98-108 keeps *)

Lemma clear_at_nth (j : nat) (mask : list bool) (i : nat) :
  nth i (clear_at j mask) false
  = if Nat.eqb i j then false else nth i mask false.
Proof.
  revert j i. induction mask as [|b mask IH]; intros j i; simpl.
  - destruct j as [|j]; destruct i as [|i]; simpl; try reflexivity.
    now destruct (Nat.eqb i j).
  - destruct j as [|j]; destruct i as [|i]; simpl; try reflexivity.
    apply IH.
Qed.

Lemma clear_all_nth (idx : list nat) (mask : list bool) (i : nat) :
  nth i (clear_all idx mask) false
  = if mem i idx then false else nth i mask false.
Proof.
  unfold clear_all. revert mask.
  induction idx as [|j idx IH]; intros mask; simpl; [reflexivity|].
  rewrite IH, clear_at_nth.
  destruct (Nat.eqb i j); simpl; [|reflexivity].
  now destruct (mem i idx).
Qed.

Lemma mem_filter_range (p : nat -> bool) (n i : nat) :
  mem i (filter p (range n)) = (Nat.ltb i n && p i)%bool.
Proof.
  destruct (mem i (filter p (range n))) eqn:Hmem; symmetry.
  - apply mem_true_iff in Hmem. apply filter_In in Hmem.
    destruct Hmem as [Hin Hp]. apply in_seq in Hin.
    rewrite Hp, andb_true_r. apply Nat.ltb_lt. lia.
  - destruct (Nat.ltb_spec i n) as [Hlt|Hge]; [|reflexivity]. simpl.
    destruct (p i) eqn:Hp; [|reflexivity].
    assert (Hin : In i (filter p (range n))).
    { apply filter_In. split; [apply in_seq; lia | exact Hp]. }
    apply mem_true_iff in Hin. congruence.
Qed.

Lemma ones_bool_nth (n i : nat) : nth i (ones_bool n) false = Nat.ltb i n.
Proof.
  unfold ones_bool. revert i. induction n as [|n IH]; intros i; simpl.
  - now destruct i.
  - destruct i as [|i]; [reflexivity | apply IH].
Qed.

(** The assignment [mask[[i for i in range(n) if p(i)]] = False]. *)
Lemma clear_filter_nth (p : nat -> bool) (n : nat) (mask : list bool)
      (i : nat) :
  nth i (clear_all (filter p (range n)) mask) false
  = (negb (Nat.ltb i n && p i) && nth i mask false)%bool.
Proof.
  rewrite clear_all_nth, mem_filter_range.
  now destruct (Nat.ltb i n && p i)%bool.
Qed.

(** With the flow filters off and [min_count > 0], the mask keeps
    exactly the nodes whose row total is below [min_count]. *)
Lemma trim_mask_min_count (self : CSN) (msn : nat) (totcounts : list Qc)
      (min_count : Qc) (i : nat) :
  0 < min_count ->
  (i < nnodes self)%nat ->
  nth i (trim_mask self msn totcounts false false min_count) false
  = Qcltb (nth i totcounts 0) min_count.
Proof.
  intros Hpos Hi. unfold trim_mask.
  apply Qcltb_spec in Hpos. rewrite Hpos.
  rewrite clear_filter_nth, ones_bool_nth.
  apply Nat.ltb_lt in Hi. rewrite Hi. simpl. rewrite andb_true_r.
  now rewrite Qcleb_negb_ltb, negb_involutive.
Qed.

(** With [by_outflow] on, the mask never keeps the most-sampled node. *)
Lemma trim_mask_by_outflow_drops_msn (self : CSN) (msn : nat)
      (totcounts : list Qc) (by_inflow : bool) (min_count : Qc) :
  nth msn (trim_mask self msn totcounts by_inflow true min_count) false
  = false.
Proof.
  unfold trim_mask. cbv zeta.
  set (m1 := clear_all _ (ones_bool (nnodes self))).
  assert (H1 : nth msn m1 false = false).
  { subst m1.
    rewrite clear_filter_nth, ones_bool_nth, dfs_predecessors_no_source.
    simpl. now destruct (Nat.ltb msn (nnodes self)). }
  clearbody m1.
  destruct (Qcltb 0 min_count), by_inflow;
    repeat rewrite clear_filter_nth; rewrite H1;
    rewrite ?andb_false_r; reflexivity.
Qed.

(** With all filters off the mask keeps every node. *)
Lemma trim_mask_no_filter (self : CSN) (msn : nat) (totcounts : list Qc) :
  trim_mask self msn totcounts false false 0 = ones_bool (nnodes self).
Proof. reflexivity. Qed.

(** C3, at [[1]] with both flow filters off and [min_count = 0]: the
    call returns, the mask keeps the one node (the trimmed count matrix
    is 1 by 1), and [trim_indices] is the empty list, not [[0]]. *)
Theorem trim_no_filter_single :
  view trim_indices (then_trim (CSN_init single false) false false 0)
  = Some [] /\
  range 1 = [0%nat] /\
  view (fun t => shape (trim_countmat t))
       (then_trim (CSN_init single false) false false 0)
  = Some (1, 1)%nat.
Proof. repeat split; vm_compute; reflexivity. Qed.

(** C4, at the 3-cycle [[0,5,0],[0,0,5],[5,0,0]] with both flow filters
    on: the most-sampled node is 0, and it is not in [trim_indices],
    which is empty; the mask keeps node 1 alone (the trimmed count matrix
    is the 1 by 1 matrix of the entry (1,1)). *)
Theorem trim_drops_msn_cycle3 :
  msn_of (CSN_init cycle3 false) = Ok 0%nat /\
  view trim_indices (then_trim (CSN_init cycle3 false) true true 0)
  = Some [] /\
  view (fun t => (shape (trim_countmat t), entries (trim_countmat t)))
       (then_trim (CSN_init cycle3 false) true true 0)
  = Some ((1, 1)%nat, [[0%Q]]) /\
  keys (dfs_predecessors (graph_of (CSN_init cycle3 false)) 0) = [1; 2]%nat /\
  keys (dfs_successors (graph_of (CSN_init cycle3 false)) 0) = [0; 1]%nat.
Proof. repeat split; vm_compute; reflexivity. Qed.

(** C5, at [[5,0],[0,1]] with [min_count = 3] and the flow filters off:
    the row totals are 5 and 1; [trim_indices] is empty, and the mask
    keeps node 1, whose total is below the threshold, and drops node 0,
    whose total is above it (the trimmed count matrix is [[1]]). *)
Theorem trim_min_count_two_diag :
  option_map (fun self => map this (sum_axis1 (rows (countmat self))))
             (match CSN_init two_diag false with
              | Ok self => Some self | Raise _ => None end)
  = Some [5; 1]%Q /\
  view trim_indices (then_trim (CSN_init two_diag false) false false (qz 3))
  = Some [] /\
  view (fun t => (shape (trim_countmat t), entries (trim_countmat t)))
       (then_trim (CSN_init two_diag false) false false (qz 3))
  = Some ((1, 1)%nat, [[1%Q]]).
Proof. repeat split; vm_compute; reflexivity. Qed.

(** C6, at [[5,0],[1,0]] with [by_inflow] on alone: the most-sampled
    node is 0, node 1 reaches it along the edge 1 -> 0 and node 0 reaches
    itself, but [dfs_successors] from node 0 has no key, the mask keeps no
    node (the trimmed count matrix is 0 by 0) and [trim_indices] is
    empty. *)
Theorem trim_by_inflow_into_msn :
  msn_of (CSN_init into_msn false) = Ok 0%nat /\
  reaches (graph_of (CSN_init into_msn false)) 1 0 /\
  reaches (graph_of (CSN_init into_msn false)) 0 0 /\
  keys (dfs_successors (graph_of (CSN_init into_msn false)) 0) = [] /\
  view trim_indices (then_trim (CSN_init into_msn false) true false 0)
  = Some [] /\
  view (fun t => shape (trim_countmat t))
       (then_trim (CSN_init into_msn false) true false 0)
  = Some (0, 0)%nat.
Proof.
  split; [vm_compute; reflexivity|].
  split.
  { apply reaches_step with (v := 0%nat); [|apply reaches_refl].
    vm_compute. left. reflexivity. }
  split; [apply reaches_refl|].
  repeat split; vm_compute; reflexivity.
Qed.

(** C7, at [[1]] with all filters off: [trim_indices] has length 0,
    while [trim_countmat] and [trim_transmat] are 1 by 1. *)
Theorem trim_indices_length_single :
  view (fun t => length (trim_indices t))
       (then_trim (CSN_init single false) false false 0)
  = Some 0%nat /\
  view (fun t => (shape (trim_countmat t), length (rows (trim_countmat t))))
       (then_trim (CSN_init single false) false false 0)
  = Some ((1, 1), 1)%nat /\
  view (fun t => (shape (trim_transmat t), length (rows (trim_transmat t))))
       (then_trim (CSN_init single false) false false 0)
  = Some ((1, 1), 1)%nat.
Proof. repeat split; vm_compute; reflexivity. Qed.

(** C8, at [[1]]: the first call of [trim_graph] on the instance
    returns; the second call on the same instance raises [TypeError],
    because the name [trim_graph] now holds the subgraph. *)
Theorem trim_graph_twice_raises :
  is_ok (then_trim (CSN_init single false) true true 0) = true /\
  then_trim (then_trim (CSN_init single false) true true 0) true true 0
  = Raise (TypeError "'DiGraph' object is not callable").
Proof. split; vm_compute; reflexivity. Qed.

(** A 0 by 0 array passes the constructor (the shape is square); the
    first call of [trim_graph] then raises at line 95, [argmax] of an
    empty column. *)
Example trim_graph_empty_raises :
  is_ok (CSN_init empty00 false) = true /\
  then_trim (CSN_init empty00 false) true true 0
  = Raise (ValueError "attempt to get argmax of an empty sequence" None).
Proof. split; vm_compute; reflexivity. Qed.

(* ------------------------------------------------------------------ *)
(** ** [count_to_trans] over any arithmetic, and in float64             *)
(* ------------------------------------------------------------------ *)

Section AnyArithmeticFacts.

Variable T : Type.
Variable sum : list T -> T.
Variable divide : T -> T -> T.
Variable positive : T -> bool.

Lemma set_row_of_middle (pre : list (list T)) (r v : list T)
      (post : list (list T)) :
  set_row_of T (length pre) v (pre ++ r :: post) = pre ++ v :: post.
Proof.
  induction pre as [|p pre IH]; simpl; [reflexivity | now rewrite IH].
Qed.

Lemma count_to_trans_of_loop (rs pre : list (list T)) :
  fold_left (count_to_trans_step_of T divide positive)
            (combine (seq (length pre) (length rs)) (map sum rs))
            (pre ++ rs)
  = pre ++ map (fun r => if positive (sum r)
                         then div_row_of T divide r (sum r) else r) rs.
Proof.
  revert pre. induction rs as [|r rs IH]; intros pre; simpl.
  - reflexivity.
  - rewrite nth_middle, set_row_of_middle.
    set (v := if positive (sum r)
              then div_row_of T divide r (sum r) else r).
    replace (if positive (sum r)
             then pre ++ div_row_of T divide r (sum r) :: rs
             else pre ++ r :: rs)
      with ((pre ++ [v]) ++ rs).
    + specialize (IH (pre ++ [v])).
      rewrite length_app, Nat.add_1_r in IH. rewrite IH.
      now rewrite <- app_assoc.
    + rewrite <- app_assoc. subst v. now destruct (positive (sum r)).
Qed.

(** The loop, whatever the arithmetic: each row with a positive sum is
    divided by it, each other row is left as it is. *)
Lemma count_to_trans_of_rows (tmp : list (list T)) :
  count_to_trans_of T sum divide positive tmp
  = map (fun r => if positive (sum r)
                  then div_row_of T divide r (sum r) else r) tmp.
Proof.
  unfold count_to_trans_of, enumerate. rewrite length_map.
  exact (count_to_trans_of_loop tmp []).
Qed.

End AnyArithmeticFacts.

(** The exact embedding is the instance of the same body at [Qc]. *)
Lemma count_to_trans_instance (m : matrix) :
  rows (count_to_trans m)
  = count_to_trans_of Qc row_sum Qcdiv (Qcltb 0) (rows m).
Proof. reflexivity. Qed.


(** At [[1, 4, 1], [0, 0, 0], [0, 0, 0]] the divided row does not sum
    to 1 either: rounding leaves it one unit in the last place below. *)
Example count_to_trans_f64_rounding :
  PrimFloat.eqb
    (F64.row_sum (nth 0 (F64.rows (F64.count_to_trans F64.sixths)) []))
    PrimFloat.one = false /\
  PrimFloat.eqb
    (F64.row_sum (nth 0 (F64.rows (F64.count_to_trans F64.sixths)) []))
    (PrimFloat.next_down PrimFloat.one) = true.
Proof. split; vm_compute; reflexivity. Qed.

(* ------------------------------------------------------------------ *)
(** ** Further properties of [count_to_trans]                           *)
(* ------------------------------------------------------------------ *)



(** X1.  [count_to_trans] on any matrix, negative entries included: the
    row at index [i] of the result is the input row divided by its sum when
    the sum is positive, and the input row itself otherwise. *)
Theorem count_to_trans_row_cases (m : matrix) (i : nat) (r : list Qc) :
  nth_error (rows m) i = Some r ->
  nth_error (rows (count_to_trans m)) i
  = Some (if Qcltb 0 (row_sum r) then div_row r (row_sum r) else r).
Proof.
  intros Hi. rewrite count_to_trans_rows, nth_error_map, Hi. reflexivity.
Qed.

Lemma count_to_trans_row_cases_witness :
  nth_error (rows (count_to_trans ten_zero)) 1
  = Some (if Qcltb 0 (row_sum (map qz [0; 0]%Z))
          then div_row (map qz [0; 0]%Z) (row_sum (map qz [0; 0]%Z))
          else map qz [0; 0]%Z).
Proof.
  apply (count_to_trans_row_cases ten_zero 1 (map qz [0; 0]%Z)).
  reflexivity.
Defined.




Lemma nth_div_row (r : list Qc) (c : Qc) (j : nat) :
  nth j (div_row r c) 0 = nth j r 0 / c.
Proof.
  unfold div_row.
  replace 0 with (0 / c) at 1 by (unfold Qcdiv; apply Qcmult_0_l).
  apply (map_nth (fun x => x / c)).
Qed.

Lemma get_count_to_trans_zero (m : matrix) (i j : nat) :
  get m i j = 0 -> get (count_to_trans m) i j = 0.
Proof.
  intros Hz. unfold get in *. rewrite count_to_trans_rows.
  replace (@nil Qc) with (norm_row []) at 1 by reflexivity.
  rewrite (map_nth norm_row). unfold norm_row.
  destruct (Qcltb 0 (row_sum (nth i (rows m) []))); [|exact Hz].
  rewrite nth_div_row, Hz. unfold Qcdiv. apply Qcmult_0_l.
Qed.

(** X4.  [count_to_trans] creates no entry: where the input has a zero
    the result has a zero (a zero divided by a positive sum is zero, and
    the other rows are not touched). *)
Theorem count_to_trans_keeps_zeros (m : matrix) (i j : nat) :
  get m i j = 0 -> get (count_to_trans m) i j = 0.
Proof.
  intros Hz. unfold get in *. rewrite count_to_trans_rows.
  replace (@nil Qc) with (norm_row []) at 1 by reflexivity.
  rewrite (map_nth norm_row). unfold norm_row.
  destruct (Qcltb 0 (row_sum (nth i (rows m) []))); [|exact Hz].
  rewrite nth_div_row, Hz. unfold Qcdiv. apply Qcmult_0_l.
Qed.

Lemma count_to_trans_keeps_zeros_witness :
  get (count_to_trans ten_zero) 0 1 = 0.
Proof.
  apply (count_to_trans_keeps_zeros ten_zero 0 1).
  apply Qc_is_canon. reflexivity.
Defined.

(* ------------------------------------------------------------------ *)
(** ** Further properties of [symmetrize]                               *)
(* ------------------------------------------------------------------ *)

Lemma get_build_full (r c : nat) (f : nat -> nat -> Qc) (i j : nat) :
  get (build r c f) i j
  = if (Nat.ltb i r && Nat.ltb j c)%bool then f i j else 0.
Proof.
  destruct (Nat.ltb_spec i r) as [Hi|Hi]; simpl.
  - destruct (Nat.ltb_spec j c) as [Hj|Hj].
    + now apply get_build.
    + unfold get, build; simpl.
      rewrite (nth_indep _ [] (map (f 0%nat) (seq 0 c)))
        by (rewrite length_map, length_seq; exact Hi).
      rewrite (map_nth (fun i => map (f i) (seq 0 c)) (seq 0 r) 0%nat i).
      apply nth_overflow. now rewrite length_map, length_seq.
  - unfold get, build; simpl.
    rewrite (nth_overflow _ [] (n := i))
      by (now rewrite length_map, length_seq).
    now destruct j.
Qed.

Lemma symmetrize_not_square (m : matrix) :
  nrows m <> ncols m ->
  symmetrize m = Raise (ValueError "inconsistent shapes" None).
Proof.
  intros Hne. unfold symmetrize, add, transpose.
  unfold nrows at 2, ncols at 3. simpl.
  apply Nat.eqb_neq in Hne. rewrite Hne. reflexivity.
Qed.

(** X5.  [symmetrize] returns a matrix exactly on square input; on any
    other shape the sum with the transpose raises [ValueError]. *)
Theorem symmetrize_ok_iff_square (m : matrix) :
  (nrows m = ncols m -> is_ok (symmetrize m) = true) /\
  (nrows m <> ncols m ->
   symmetrize m = Raise (ValueError "inconsistent shapes" None)).
Proof.
  split.
  - intros Hsq. now rewrite symmetrize_square.
  - apply symmetrize_not_square.
Qed.

Lemma symmetrize_ok_iff_square_witness :
  is_ok (symmetrize asym) = true /\
  symmetrize {| shape := (2, 3)%nat; rows := qrows [[0; 1; 2]; [3; 4; 5]]%Z |}
  = Raise (ValueError "inconsistent shapes" None).
Proof.
  split.
  - apply (symmetrize_ok_iff_square asym). reflexivity.
  - apply (symmetrize_ok_iff_square
             {| shape := (2, 3)%nat;
                rows := qrows [[0; 1; 2]; [3; 4; 5]]%Z |}).
    unfold nrows, ncols; simpl; lia.
Defined.

(** X6.  The matrix [symmetrize] returns has the shape of its argument,
    is well formed and is symmetric. *)
Theorem symmetrize_symmetric (m s : matrix) :
  symmetrize m = Ok s ->
  shape s = shape m /\ wf s /\ symmetric s.
Proof.
  intros Hs.
  assert (Hsq : nrows m = ncols m).
  { destruct (Nat.eq_dec (nrows m) (ncols m)) as [H|H]; [exact H|].
    rewrite (symmetrize_not_square m H) in Hs. discriminate. }
  rewrite (symmetrize_square m Hsq) in Hs. injection Hs as <-.
  split; [|split; [apply build_wf|]].
  - unfold build; simpl. unfold nrows, ncols in *.
    destruct (shape m); simpl in *. now subst.
  - intros i j. rewrite !get_build_full.
    rewrite (andb_comm (Nat.ltb j _)).
    destruct (Nat.ltb i (nrows m) && Nat.ltb j (nrows m))%bool;
      [|reflexivity].
    f_equal. apply Qcplus_comm.
Qed.

Lemma symmetrize_symmetric_witness :
  exists s : matrix, shape s = shape asym /\ wf s /\ symmetric s.
Proof.
  eexists.
  apply (symmetrize_symmetric asym). apply symmetrize_square. reflexivity.
Defined.

(* ------------------------------------------------------------------ *)
(** ** The most-sampled node                                            *)
(* ------------------------------------------------------------------ *)

Lemma argmax_from_spec (l : list Qc) :
  forall (p : list Qc) (bi : nat) (b : Qc),
    (bi < length p)%nat ->
    nth bi p 0 = b ->
    (forall j, (j < length p)%nat -> nth j p 0 <= b) ->
    (forall j, (j < bi)%nat -> nth j p 0 < b) ->
    let k := argmax_from bi b (length p) l in
    (k < length (p ++ l))%nat /\
    (forall j, (j < length (p ++ l))%nat ->
               nth j (p ++ l) 0 <= nth k (p ++ l) 0) /\
    (forall j, (j < k)%nat -> nth j (p ++ l) 0 < nth k (p ++ l) 0).
Proof.
  induction l as [|x l IH]; intros p bi b Hbi Hb Hmax Hfirst; simpl.
  - rewrite app_nil_r, Hb. repeat split; assumption.
  - assert (Hlen : length (p ++ [x]) = S (length p))
      by (rewrite length_app; simpl; lia).
    replace (p ++ x :: l) with ((p ++ [x]) ++ l)
      by (now rewrite <- app_assoc).
    destruct (Qcltb b x) eqn:Hlt.
    + apply Qcltb_spec in Hlt. rewrite <- Hlen.
      apply IH; rewrite ?Hlen.
      * lia.
      * now rewrite nth_middle.
      * intros j Hj. destruct (Nat.eq_dec j (length p)) as [->|Hne].
        -- rewrite nth_middle. apply Qcle_refl.
        -- rewrite app_nth1 by lia. apply Qclt_le_weak.
           apply Qcle_lt_trans with b; [apply Hmax; lia | exact Hlt].
      * intros j Hj. rewrite app_nth1 by lia.
        apply Qcle_lt_trans with b; [apply Hmax; lia | exact Hlt].
    + assert (Hle : x <= b).
      { apply Qcnot_lt_le. intros H. apply Qcltb_spec in H. congruence. }
      rewrite <- Hlen. apply IH; rewrite ?Hlen.
      * lia.
      * now rewrite app_nth1.
      * intros j Hj. destruct (Nat.eq_dec j (length p)) as [->|Hne].
        -- now rewrite nth_middle.
        -- rewrite app_nth1 by lia. apply Hmax. lia.
      * intros j Hj. rewrite app_nth1 by lia. now apply Hfirst.
Qed.

(** X8.  The index [trim_graph] takes as most-sampled node (line 95) is
    within range, its row total is the largest, and every earlier row has
    a strictly smaller total: ties go to the lowest index.  On an empty
    column [argmax] raises instead. *)
Theorem argmax_first_maximum (totcounts : list Qc) :
  (totcounts = [] -> is_ok (argmax totcounts) = false) /\
  (totcounts <> [] ->
   exists msn : nat,
     argmax totcounts = Ok msn /\
     (msn < length totcounts)%nat /\
     (forall j, (j < length totcounts)%nat ->
                nth j totcounts 0 <= nth msn totcounts 0) /\
     (forall j, (j < msn)%nat -> nth j totcounts 0 < nth msn totcounts 0)).
Proof.
  split; [intros ->; reflexivity|].
  destruct totcounts as [|x l]; [congruence|]. intros _.
  exists (argmax_from 0%nat x 1%nat l). split; [reflexivity|].
  apply (argmax_from_spec l [x] 0%nat x); simpl.
  - lia.
  - reflexivity.
  - intros j Hj. assert (j = 0%nat) as -> by lia. apply Qcle_refl.
  - intros j Hj. lia.
Qed.

Lemma argmax_first_maximum_witness :
  is_ok (argmax []) = false /\
  exists msn : nat,
    argmax (map qz [5; 7; 7]%Z) = Ok msn /\
    (msn < length (map qz [5; 7; 7]%Z))%nat /\
    (forall j, (j < length (map qz [5; 7; 7]%Z))%nat ->
               nth j (map qz [5; 7; 7]%Z) 0 <= nth msn (map qz [5; 7; 7]%Z) 0) /\
    (forall j, (j < msn)%nat ->
               nth j (map qz [5; 7; 7]%Z) 0 < nth msn (map qz [5; 7; 7]%Z) 0).
Proof.
  split.
  - apply (argmax_first_maximum []). reflexivity.
  - apply (argmax_first_maximum (map qz [5; 7; 7]%Z)). discriminate.
Defined.

(* ------------------------------------------------------------------ *)
(** ** The graph [__init__] builds                                      *)
(* ------------------------------------------------------------------ *)

Lemma dict_get_set {V : Type} (d : dict V) (k k' : nat) (v : V) :
  dict_get (dict_set d k v) k'
  = if Nat.eqb k' k then Some v else dict_get d k'.
Proof.
  induction d as [|[k0 v0] d IH]; simpl.
  - reflexivity.
  - destruct (Nat.eqb_spec k k0) as [->|Hne]; simpl.
    + now destruct (Nat.eqb k' k0).
    + rewrite IH. destruct (Nat.eqb_spec k' k0) as [->|Hne'];
        [|reflexivity].
      destruct (Nat.eqb_spec k0 k) as [->|_]; [congruence | reflexivity].
Qed.

Lemma dict_set_fresh {V : Type} (d : dict V) (k : nat) (v : V) :
  dict_get d k = None -> dict_set d k v = (d ++ [(k, v)])%list.
Proof.
  induction d as [|[k0 v0] d IH]; simpl; [reflexivity|].
  destruct (Nat.eqb k k0); [discriminate|].
  intros H. now rewrite IH.
Qed.

Lemma dict_get_map_seq {V : Type} (f : nat -> V) (n k : nat) :
  dict_get (map (fun i => (i, f i)) (seq 0 n)) k
  = if Nat.ltb k n then Some (f k) else None.
Proof.
  induction n as [|n IH].
  - reflexivity.
  - rewrite seq_S, map_app. simpl.
    assert (Happ : forall (d1 d2 : dict V),
               dict_get (d1 ++ d2)%list k
               = match dict_get d1 k with
                 | Some v => Some v
                 | None => dict_get d2 k
                 end).
    { induction d1 as [|[k0 v0] d1 IHd]; intros d2; simpl; [reflexivity|].
      destruct (Nat.eqb k k0); [reflexivity | apply IHd]. }
    rewrite Happ, IH. simpl.
    destruct (Nat.ltb_spec k n) as [Hlt|Hge].
    + destruct (Nat.ltb_spec k (S n)); [reflexivity | lia].
    + destruct (Nat.eqb_spec k n) as [->|Hne].
      * destruct (Nat.ltb_spec n (S n)); [reflexivity | lia].
      * destruct (Nat.ltb_spec k (S n)); [lia | reflexivity].
Qed.

Lemma combine_map_seq {A : Type} (f : nat -> A) (s n : nat) :
  combine (seq s n) (map f (seq s n)) = map (fun i => (i, f i)) (seq s n).
Proof.
  revert s. induction n as [|n IH]; intros s; simpl; [reflexivity|].
  now rewrite IH.
Qed.

(** The graph after [add_nodes_from]: nodes 0..n-1, each with its [ID]
    and an empty adjacency. *)
Lemma add_nodes_from_range (n : nat) :
  add_nodes_from empty_graph
    (combine (range n) (map (fun i => [("ID"%string, i)]) (range n)))
  = {| node := id_nodes n; succ := map (fun i => (i, [])) (range n) |}.
Proof.
  unfold range, id_nodes, range. rewrite combine_map_seq.
  induction n as [|n IH]; [reflexivity|].
  rewrite seq_S, !map_app. unfold add_nodes_from in *.
  rewrite fold_left_app.
  match goal with
  | |- fold_left ?f ?l _ = _ =>
      transitivity
        (fold_left f l
           {| node := map (fun i => (i, [("ID"%string, i)])) (seq 0 n);
              succ := map (fun i => (i, [])) (seq 0 n) |});
        [apply (f_equal (fold_left f l)); exact IH|]
  end.
  cbn [fold_left map Nat.add]. unfold add_node.
  cbn [node succ].
  assert (Hlt : Nat.ltb n n = false) by apply Nat.ltb_irrefl.
  match goal with
  | |- match ?x with Some _ => _ | None => _ end = _ =>
      assert (Hn : x = None)
        by (etransitivity;
            [exact (dict_get_map_seq (fun i => [("ID"%string, i)]) n n)
            | now rewrite Hlt])
  end.
  rewrite Hn. f_equal.
  - now apply dict_set_fresh.
  - apply dict_set_fresh.
    etransitivity;
      [exact (dict_get_map_seq (fun _ => @nil (nat * Qc)) n n)
      | now rewrite Hlt].
Qed.

Lemma add_edge_present (g : DiGraph) (u v : nat) (w : Qc) :
  dict_mem (node g) u = true -> dict_mem (node g) v = true ->
  add_edge g u v w
  = {| node := node g;
       succ := dict_set (succ g) u (dict_set (adj g u) v w) |}.
Proof.
  intros Hu Hv. unfold add_edge. rewrite Hu, Hv. reflexivity.
Qed.

Lemma adj_add_edge (g : DiGraph) (u v : nat) (w : Qc) (u' : nat) :
  dict_mem (node g) u = true -> dict_mem (node g) v = true ->
  adj (add_edge g u v w) u'
  = if Nat.eqb u' u then dict_set (adj g u) v w else adj g u'.
Proof.
  intros Hu Hv. rewrite add_edge_present by assumption.
  unfold adj at 1; simpl. rewrite dict_get_set.
  now destruct (Nat.eqb u' u).
Qed.

(** Adding edges between nodes already present leaves the node dict
    alone and extends each adjacency in the order of the list. *)
Lemma add_weighted_edges_present (l : list (nat * nat * Qc)) :
  forall g : DiGraph,
    Forall (fun '(u, v, _) => dict_mem (node g) u = true /\
                              dict_mem (node g) v = true) l ->
    node (add_weighted_edges_from g l) = node g /\
    forall u : nat,
      adj (add_weighted_edges_from g l) u
      = fold_left (fun a '(v, w) => dict_set a v w) (out_edges u l) (adj g u).
Proof.
  unfold add_weighted_edges_from.
  induction l as [|[[u v] w] l IH]; intros g Hall; simpl.
  - split; [reflexivity | intros u; reflexivity].
  - inversion Hall as [|? ? Hhd Hrest]; subst.
    simpl in Hhd. destruct Hhd as [Hu Hv].
    assert (Hnode : node (add_edge g u v w) = node g)
      by (now rewrite add_edge_present).
    destruct (IH (add_edge g u v w)) as [IHn IHa].
    { rewrite Hnode. exact Hrest. }
    split; [now rewrite IHn|].
    intros u'. rewrite IHa, adj_add_edge by assumption.
    unfold out_edges. cbn [flat_map]. rewrite (Nat.eqb_sym u' u).
    destruct (Nat.eqb_spec u u') as [->|Hne]; reflexivity.
Qed.

Lemma in_enumerate_from {A : Type} (l : list A) :
  forall (s i : nat) (x : A),
    In (i, x) (combine (seq s (length l)) l) ->
    (s <= i)%nat /\ nth_error l (i - s) = Some x.
Proof.
  induction l as [|y l IH]; intros s i x; simpl; [contradiction|].
  intros [H|H].
  - injection H as <- <-. split; [lia|]. now rewrite Nat.sub_diag.
  - destruct (IH (S s) i x H) as [Hle Hnth]. split; [lia|].
    replace (i - s)%nat with (S (i - S s)) by lia. exact Hnth.
Qed.

Lemma in_enumerate {A : Type} (l : list A) (i : nat) (x : A) :
  In (i, x) (enumerate l) -> nth_error l i = Some x.
Proof.
  intros H. apply in_enumerate_from in H. destruct H as [_ H].
  now rewrite Nat.sub_0_r in H.
Qed.

(** The triples of [coo_matrix(dense)] lie inside the array. *)
Lemma coo_triples_in_range (m : matrix) (i j : nat) (x : Qc) :
  In (i, j, x) (coo_triples m) ->
  (i < length (rows m))%nat /\ (j < length (nth i (rows m) []))%nat.
Proof.
  unfold coo_triples, coo_row. intros H.
  apply in_flat_map in H. destruct H as [[i' r] [Hr H]].
  apply in_flat_map in H. destruct H as [[j' y] [Hy H]].
  destruct (Qceqb y 0); [contradiction|].
  destruct H as [H|[]]. injection H as -> -> ->.
  apply in_enumerate in Hr. apply in_enumerate in Hy.
  assert (Hi : (i < length (rows m))%nat)
    by (apply nth_error_Some; congruence).
  split; [exact Hi|].
  rewrite (nth_error_nth _ _ [] Hr). apply nth_error_Some. congruence.
Qed.

Lemma out_edges_app (u : nat) (l1 l2 : list (nat * nat * Qc)) :
  out_edges u (l1 ++ l2) = (out_edges u l1 ++ out_edges u l2)%list.
Proof. unfold out_edges. apply flat_map_app. Qed.

Lemma out_edges_coo_row (i u : nat) (r : list Qc) :
  out_edges u (coo_row i r)
  = if Nat.eqb i u then nonzero_entries r else [].
Proof.
  unfold coo_row, nonzero_entries.
  induction (enumerate r) as [|[j x] e IH]; simpl.
  - now destruct (Nat.eqb i u).
  - destruct (Qceqb x 0); simpl; [exact IH|].
    rewrite IH. now destruct (Nat.eqb i u).
Qed.

Lemma out_edges_rows_from (u : nat) (rs : list (list Qc)) :
  forall s : nat,
    out_edges u (flat_map (fun '(i, r) => coo_row i r)
                          (combine (seq s (length rs)) rs))
    = if Nat.leb s u then nonzero_entries (nth (u - s) rs []) else [].
Proof.
  induction rs as [|r rs IH]; intros s; simpl.
  - destruct (Nat.leb s u); [|reflexivity]. now destruct (u - s)%nat.
  - rewrite out_edges_app, out_edges_coo_row, IH.
    destruct (Nat.eqb_spec s u) as [->|Hne].
    + rewrite Nat.leb_refl, Nat.sub_diag.
      destruct (Nat.leb_spec (S u) u); [lia|]. apply app_nil_r.
    + destruct (Nat.leb_spec s u) as [Hle|Hgt].
      * destruct (Nat.leb_spec (S s) u); [|lia]. simpl.
        replace (u - s)%nat with (S (u - S s)) by lia. reflexivity.
      * destruct (Nat.leb_spec (S s) u); [lia | reflexivity].
Qed.

Lemma out_edges_coo_triples (m : matrix) (u : nat) :
  out_edges u (coo_triples m) = nonzero_entries (nth u (rows m) []).
Proof.
  unfold coo_triples, enumerate.
  rewrite out_edges_rows_from. simpl. now rewrite Nat.sub_0_r.
Qed.

Lemma dict_get_not_in {V : Type} (d : dict V) (k : nat) :
  ~ In k (keys d) -> dict_get d k = None.
Proof.
  induction d as [|[k0 v0] d IH]; simpl; [reflexivity|].
  intros H. destruct (Nat.eqb_spec k k0) as [->|Hne].
  - exfalso. apply H. now left.
  - apply IH. intros Hin. apply H. now right.
Qed.

(** Filling an empty dict from pairs with distinct keys gives the list
    of pairs. *)
Lemma fold_dict_set_distinct {V : Type} (l : list (nat * V)) :
  forall d : dict V,
    NoDup (keys (d ++ l)) ->
    fold_left (fun a '(k, v) => dict_set a k v) l d = (d ++ l)%list.
Proof.
  induction l as [|[k v] l IH]; intros d Hnd; simpl.
  - now rewrite app_nil_r.
  - assert (Hk : dict_get d k = None).
    { apply dict_get_not_in. unfold keys in *. rewrite map_app in Hnd.
      simpl in Hnd. apply NoDup_remove_2 in Hnd.
      intros Hin. apply Hnd. apply in_or_app. now left. }
    rewrite (dict_set_fresh d k v Hk), IH.
    + now rewrite <- app_assoc.
    + now rewrite <- app_assoc.
Qed.

Lemma keys_enumerate_from {A : Type} (l : list A) (s : nat) :
  map fst (combine (seq s (length l)) l) = seq s (length l).
Proof.
  revert s. induction l as [|x l IH]; intros s; simpl; [reflexivity|].
  now rewrite IH.
Qed.

Lemma NoDup_keys_filter {V : Type} (p : nat * V -> bool) (l : list (nat * V)) :
  NoDup (map fst l) -> NoDup (map fst (filter p l)).
Proof.
  induction l as [|[k v] l IH]; simpl; intros Hnd; [constructor|].
  inversion Hnd as [|? ? Hk Hrest]; subst.
  destruct (p (k, v)); simpl; [|now apply IH].
  constructor; [|now apply IH].
  intros Hin. apply Hk. apply in_map_iff in Hin.
  destruct Hin as [[k' v'] [Heq Hin]]. simpl in Heq. subst k'.
  apply filter_In in Hin. destruct Hin as [Hin _].
  apply in_map_iff. now exists (k, v').
Qed.

Lemma nonzero_entries_NoDup (r : list Qc) :
  NoDup (keys (nonzero_entries r)).
Proof.
  unfold nonzero_entries, keys. apply NoDup_keys_filter.
  unfold enumerate. rewrite keys_enumerate_from. apply seq_NoDup.
Qed.

Lemma dict_mem_id_nodes (n u : nat) :
  dict_mem (id_nodes n) u = Nat.ltb u n.
Proof.
  pose proof (dict_get_map_seq (fun i => [("ID"%string, i)]) n u) as H.
  unfold dict_mem, id_nodes, range.
  match goal with
  | |- match ?x with Some _ => _ | None => _ end = _ =>
      replace x with (if Nat.ltb u n then Some [("ID"%string, u)] else None)
        by (symmetry; exact H)
  end.
  now destruct (Nat.ltb u n).
Qed.

(* ------------------------------------------------------------------ *)
(** ** What a constructed instance holds                                *)
(* ------------------------------------------------------------------ *)

(** The shape of every successful construction. *)
Lemma CSN_init_inv (counts : counts_arg) (sym : bool) (self : CSN) :
  CSN_init counts sym = Ok self ->
  sym = false /\
  to_coo counts = Ok (countmat self) /\
  nrows (countmat self) = ncols (countmat self) /\
  symmetrize_flag self = false /\
  nnodes self = nrows (countmat self) /\
  transmat self = count_to_trans (countmat self) /\
  graph self
  = add_weighted_edges_from
      (add_nodes_from empty_graph
         (combine (range (nnodes self))
                  (map (fun i => [("ID"%string, i)]) (range (nnodes self)))))
      (coo_triples (transmat self)) /\
  trim self = None.
Proof.
  unfold CSN_init. destruct (to_coo counts) as [m|e]; simpl; [|discriminate].
  destruct (Nat.eqb_spec (nrows m) (ncols m)) as [Hsq|Hne]; simpl;
    [|discriminate].
  destruct sym; simpl; [discriminate|].
  intros H. injection H as <-. simpl. repeat split. exact Hsq.
Qed.

(** X9.  The constructor returns an instance exactly when the flag is
    off and the input converts to a square matrix. *)
Theorem CSN_init_ok_iff (counts : counts_arg) (sym : bool) :
  is_ok (CSN_init counts sym) = true <->
  sym = false /\
  exists m : matrix, to_coo counts = Ok m /\ nrows m = ncols m.
Proof.
  split.
  - destruct (CSN_init counts sym) as [self|e] eqn:H; [|discriminate].
    intros _. apply CSN_init_inv in H.
    destruct H as (Hs & Hc & Hsq & _). split; [exact Hs|].
    now exists (countmat self).
  - intros [-> [m [Hc Hsq]]]. unfold CSN_init. rewrite Hc. simpl.
    apply Nat.eqb_eq in Hsq. rewrite Hsq. reflexivity.
Qed.

(** X10.  A constructed instance stores the converted input unchanged
    as its count matrix, the row dimension as [nnodes], the normalized
    count matrix as [transmat], the flag off, and no trimmed view. *)
Theorem CSN_init_fields (counts : counts_arg) (sym : bool) (self : CSN) :
  CSN_init counts sym = Ok self ->
  to_coo counts = Ok (countmat self) /\
  nnodes self = nrows (countmat self) /\
  nnodes self = ncols (countmat self) /\
  transmat self = count_to_trans (countmat self) /\
  shape (transmat self) = shape (countmat self) /\
  symmetrize_flag self = false /\
  trim self = None.
Proof.
  intros H. apply CSN_init_inv in H.
  destruct H as (_ & Hc & Hsq & Hf & Hn & Ht & _ & Htrim).
  repeat split; try assumption.
  - congruence.
  - now rewrite Ht.
Qed.

Lemma CSN_init_fields_witness :
  exists self : CSN,
    to_coo cycle3 = Ok (countmat self) /\
    nnodes self = nrows (countmat self) /\
    nnodes self = ncols (countmat self) /\
    transmat self = count_to_trans (countmat self) /\
    shape (transmat self) = shape (countmat self) /\
    symmetrize_flag self = false /\
    trim self = None.
Proof.
  eexists. apply (CSN_init_fields cycle3 false). reflexivity.
Defined.

Lemma fold_dict_set_nonzero (r : list Qc) :
  fold_left (fun a '(v, w) => dict_set a v w) (nonzero_entries r) []
  = nonzero_entries r.
Proof.
  apply (fold_dict_set_distinct (nonzero_entries r) []).
  simpl. apply nonzero_entries_NoDup.
Qed.

(** The graph of a constructed instance, for a well-formed count
    matrix: the node dict, and the adjacency of every node. *)
Lemma CSN_init_graph (counts : counts_arg) (sym : bool) (self : CSN) :
  CSN_init counts sym = Ok self ->
  wf (countmat self) ->
  node (graph self) = id_nodes (nnodes self) /\
  forall u : nat,
    adj (graph self) u = nonzero_entries (nth u (rows (transmat self)) []).
Proof.
  intros H Hwf. apply CSN_init_inv in H.
  destruct H as (_ & _ & Hsq & _ & Hn & Ht & Hg & _).
  rewrite Hg, add_nodes_from_range.
  set (g0 := {| node := id_nodes (nnodes self);
                succ := map (fun i => (i, [])) (range (nnodes self)) |}).
  assert (Hwt : wf (transmat self))
    by (rewrite Ht; now apply count_to_trans_wf).
  assert (Hshape : shape (transmat self) = shape (countmat self))
    by (now rewrite Ht).
  destruct (add_weighted_edges_present (coo_triples (transmat self)) g0)
    as [Hnode Hadj].
  { apply Forall_forall. intros [[i j] x] Hin.
    apply coo_triples_in_range in Hin. destruct Hin as [Hi Hj].
    destruct Hwt as [Hlen Hall]. rewrite Forall_forall in Hall.
    assert (Hjn : (j < ncols (transmat self))%nat).
    { rewrite <- (Hall (nth i (rows (transmat self)) [])); [exact Hj|].
      now apply nth_In. }
    unfold nrows, ncols in *. rewrite Hshape in *.
    simpl. rewrite !dict_mem_id_nodes. split; apply Nat.ltb_lt; lia. }
  split; [exact Hnode|].
  intros u. rewrite Hadj, out_edges_coo_triples.
  replace (adj g0 u) with (@nil (nat * Qc)).
  - apply fold_dict_set_nonzero.
  - pose proof (dict_get_map_seq (fun _ => @nil (nat * Qc))
                                  (nnodes self) u) as Hd.
    unfold adj, g0; simpl. unfold range.
    match goal with
    | |- _ = match ?x with Some _ => _ | None => _ end =>
        replace x with (if Nat.ltb u (nnodes self)
                        then Some (@nil (nat * Qc)) else None)
          by (symmetry; exact Hd)
    end.
    now destruct (Nat.ltb u (nnodes self)).
Qed.

Lemma dict_get_nonzero_from (r : list Qc) :
  forall s j : nat,
    dict_get (filter (fun '(_, x) => negb (Qceqb x 0))
                     (combine (seq s (length r)) r)) j
    = if Nat.leb s j
      then (if Qceqb (nth (j - s) r 0) 0 then None
            else Some (nth (j - s) r 0))
      else None.
Proof.
  induction r as [|x r IH]; intros s j; simpl.
  - destruct (Nat.leb s j); [|reflexivity]. now destruct (j - s)%nat.
  - assert (Hrest :
      dict_get (filter (fun '(_, y) => negb (Qceqb y 0))
                       (combine (seq (S s) (length r)) r)) j
      = if Nat.eqb j s then None
        else if Nat.leb s j
             then (if Qceqb (nth (j - S s) r 0) 0 then None
                   else Some (nth (j - S s) r 0))
             else None).
    { rewrite IH. destruct (Nat.eqb_spec j s) as [->|Hne].
      - destruct (Nat.leb_spec (S s) s); [lia | reflexivity].
      - destruct (Nat.leb_spec (S s) j) as [H1|H1];
          destruct (Nat.leb_spec s j) as [H2|H2];
          try reflexivity; lia. }
    destruct (Qceqb x 0) eqn:Hx; simpl; rewrite ?Hrest;
      destruct (Nat.eqb_spec j s) as [Heq|Hne].
    + subst j. rewrite Nat.leb_refl, Nat.sub_diag. simpl. now rewrite Hx.
    + destruct (Nat.leb_spec s j); [|reflexivity].
      replace (j - s)%nat with (S (j - S s)) by lia. reflexivity.
    + subst j. rewrite Nat.leb_refl, Nat.sub_diag. simpl. now rewrite Hx.
    + destruct (Nat.leb_spec s j); [|reflexivity].
      replace (j - s)%nat with (S (j - S s)) by lia. reflexivity.
Qed.

Lemma dict_get_nonzero_entries (r : list Qc) (j : nat) :
  dict_get (nonzero_entries r) j
  = if Qceqb (nth j r 0) 0 then None else Some (nth j r 0).
Proof.
  unfold nonzero_entries, enumerate. rewrite dict_get_nonzero_from.
  simpl. now rewrite Nat.sub_0_r.
Qed.

Lemma in_keys_dict_get {V : Type} (d : dict V) (k : nat) :
  In k (keys d) <-> exists v : V, dict_get d k = Some v.
Proof.
  induction d as [|[k0 v0] d IH]; simpl.
  - split; [contradiction | intros [v H]; discriminate].
  - destruct (Nat.eqb_spec k k0) as [->|Hne].
    + split; [intros _; now exists v0 | intros _; now left].
    + rewrite <- IH. split; [intros [H|H]; [congruence | exact H] | now right].
Qed.

Lemma neighbors_adj (g : DiGraph) (u : nat) :
  neighbors g u = keys (adj g u).
Proof. unfold neighbors, adj. now destruct (dict_get (succ g) u). Qed.

(** The successors of a node of a constructed instance are the columns
    of the non-zero entries of its row of [transmat]. *)
Lemma CSN_init_neighbors (counts : counts_arg) (sym : bool) (self : CSN)
      (i j : nat) :
  CSN_init counts sym = Ok self ->
  wf (countmat self) ->
  (In j (neighbors (graph self) i) <-> get (transmat self) i j <> 0).
Proof.
  intros H Hwf. destruct (CSN_init_graph counts sym self H Hwf) as [_ Hadj].
  rewrite neighbors_adj, in_keys_dict_get, Hadj, dict_get_nonzero_entries.
  unfold get. destruct (Qceqb _ 0) eqn:Hz.
  - apply Qceqb_spec in Hz. split; [intros [v Hv]; discriminate | congruence].
  - split; [|intros _; eauto].
    intros _ Hz'. apply Qceqb_spec in Hz'. congruence.
Qed.

(** X11.  The graph of a constructed instance has exactly the nodes
    0, ..., N-1, in this order, node [i] carrying the attribute [ID = i];
    adding the edges adds no node. *)
Theorem CSN_init_nodes (counts : counts_arg) (sym : bool) (self : CSN) :
  CSN_init counts sym = Ok self ->
  wf (countmat self) ->
  node (graph self) = id_nodes (nnodes self) /\
  keys (node (graph self)) = range (nnodes self) /\
  order (graph self) = nnodes self.
Proof.
  intros H Hwf. destruct (CSN_init_graph counts sym self H Hwf) as [Hnode _].
  unfold order. rewrite Hnode. unfold id_nodes, keys.
  split; [reflexivity|]. split.
  - rewrite map_map. simpl. apply map_id.
  - rewrite length_map. unfold range. apply length_seq.
Qed.

(** X12.  In the graph of a constructed instance there is an edge from
    [i] to [j] exactly when [transmat[i, j]] is not zero, and then
    [countmat[i, j]] is not zero either; the weight stored on the edge is
    [transmat[i, j]]. *)
Theorem CSN_init_edges (counts : counts_arg) (sym : bool) (self : CSN)
        (i j : nat) :
  CSN_init counts sym = Ok self ->
  wf (countmat self) ->
  (In j (neighbors (graph self) i) <-> get (transmat self) i j <> 0) /\
  (In j (neighbors (graph self) i) -> get (countmat self) i j <> 0) /\
  (forall w : Qc,
     dict_get (adj (graph self) i) j = Some w <->
     w = get (transmat self) i j /\ w <> 0).
Proof.
  intros H Hwf.
  pose proof (CSN_init_neighbors counts sym self i j H Hwf) as Hn.
  destruct (CSN_init_graph counts sym self H Hwf) as [_ Hadj].
  apply CSN_init_inv in H. destruct H as (_ & _ & _ & _ & _ & Ht & _).
  split; [exact Hn|]. split.
  - intros Hedge Hz. apply Hn in Hedge. apply Hedge.
    rewrite Ht. now apply get_count_to_trans_zero.
  - intros w. rewrite Hadj, dict_get_nonzero_entries. unfold get.
    destruct (Qceqb _ 0) eqn:Hz.
    + apply Qceqb_spec in Hz. split; [discriminate|].
      intros [-> Hw]. congruence.
    + split.
      * intros [= <-]. split; [reflexivity|].
        intros Hz'. apply Qceqb_spec in Hz'. congruence.
      * intros [-> _]. reflexivity.
Qed.

Lemma CSN_init_nodes_witness :
  exists self : CSN,
    CSN_init cycle3 false = Ok self /\
    node (graph self) = id_nodes (nnodes self) /\
    keys (node (graph self)) = range (nnodes self) /\
    order (graph self) = nnodes self.
Proof.
  eexists. split; [reflexivity|].
  apply (CSN_init_nodes cycle3 false); [reflexivity|].
  split; [reflexivity | repeat constructor].
Defined.

Lemma CSN_init_edges_witness :
  exists self : CSN,
    CSN_init cycle3 false = Ok self /\
    (In 1%nat (neighbors (graph self) 0) <-> get (transmat self) 0 1 <> 0) /\
    (In 1%nat (neighbors (graph self) 0) -> get (countmat self) 0 1 <> 0) /\
    (forall w : Qc,
       dict_get (adj (graph self) 0) 1 = Some w <->
       w = get (transmat self) 0 1 /\ w <> 0).
Proof.
  eexists. split; [reflexivity|].
  apply (CSN_init_edges cycle3 false); [reflexivity|].
  split; [reflexivity | repeat constructor].
Defined.

(* ------------------------------------------------------------------ *)
(** ** What [trim_graph] stores                                         *)
(* ------------------------------------------------------------------ *)

Lemma clear_at_length (i : nat) (mask : list bool) :
  length (clear_at i mask) = length mask.
Proof.
  revert i. induction mask as [|b mask IH]; intros i.
  - now destruct i.
  - destruct i as [|i]; simpl; [reflexivity | now rewrite IH].
Qed.

Lemma clear_all_length (idx : list nat) (mask : list bool) :
  length (clear_all idx mask) = length mask.
Proof.
  unfold clear_all. revert mask.
  induction idx as [|i idx IH]; intros mask; simpl; [reflexivity|].
  now rewrite IH, clear_at_length.
Qed.

Lemma trim_mask_length (self : CSN) (msn : nat) (totcounts : list Qc)
      (by_inflow by_outflow : bool) (min_count : Qc) :
  length (trim_mask self msn totcounts by_inflow by_outflow min_count)
  = nnodes self.
Proof.
  unfold trim_mask, ones_bool.
  destruct by_outflow, by_inflow, (Qcltb 0 min_count);
    rewrite ?clear_all_length; apply repeat_length.
Qed.

Lemma filter_mem_nil {A : Type} (f : A -> nat) (l : list A) :
  filter (fun x => mem (f x) []) l = [].
Proof. induction l as [|x l IH]; simpl; [reflexivity | exact IH]. Qed.

Lemma subgraph_nil (g : DiGraph) : subgraph g [] = empty_graph.
Proof.
  unfold subgraph, empty_graph. f_equal.
  - transitivity (filter (fun x : nat * attrs => mem (fst x) []) (node g));
      [|apply filter_mem_nil].
    apply filter_ext. now intros [n a].
  - replace (filter (fun '(n, _) => mem n []) (succ g)) with (@nil (nat * dict Qc));
      [reflexivity|].
    symmetry.
    transitivity (filter (fun x : nat * dict Qc => mem (fst x) []) (succ g));
      [|apply filter_mem_nil].
    apply filter_ext. now intros [n a].
Qed.

(** The shape of every call of [trim_graph] that returns. *)
Lemma CSN_trim_graph_inv (self self' : CSN) (by_inflow by_outflow : bool)
      (min_count : Qc) :
  CSN_trim_graph self by_inflow by_outflow min_count = Ok self' ->
  exists (msn : nat) (tmp cm : matrix),
    argmax (sum_axis1 (rows (countmat self))) = Ok msn /\
    submatrix (trim_mask self msn (sum_axis1 (rows (countmat self)))
                         by_inflow by_outflow min_count)
              (countmat self) = Ok tmp /\
    (if symmetrize_flag self then symmetrize tmp else Ok tmp) = Ok cm /\
    self' = {| countmat := countmat self;
               symmetrize_flag := symmetrize_flag self;
               nnodes := nnodes self;
               transmat := transmat self;
               graph := graph self;
               trim := Some {| trim_indices := [];
                               trim_graph := empty_graph;
                               trim_countmat := cm;
                               trim_nnodes := nrows cm;
                               trim_transmat := count_to_trans cm |} |}.
Proof.
  unfold CSN_trim_graph. cbv zeta. intros H.
  destruct (argmax _) as [msn|e] eqn:Hmsn; [|discriminate].
  unfold bind at 1 in H. rewrite mask_item_is_not_True in H.
  rewrite subgraph_nil in H.
  destruct (submatrix _ _) as [tmp|e] eqn:Htmp; [|discriminate].
  unfold bind at 1 in H.
  destruct (if symmetrize_flag self then symmetrize tmp else Ok tmp)
    as [cm|e] eqn:Hcm; simpl in H; [|discriminate].
  injection H as <-. exists msn, tmp, cm. repeat split; assumption.
Qed.

Lemma select_length {A : Type} (mask : list bool) :
  forall l : list A,
    length l = length mask -> length (select mask l) = count_true mask.
Proof.
  unfold count_true.
  induction mask as [|b mask IH]; intros [|x l]; simpl; try discriminate;
    [reflexivity|].
  intros H. injection H as H. destruct b; simpl; now rewrite IH.
Qed.

Lemma count_true_le (mask : list bool) :
  (count_true mask <= length mask)%nat.
Proof. unfold count_true. apply filter_length_le. Qed.

Lemma count_true_lt (mask : list bool) :
  forall k : nat,
    (k < length mask)%nat -> nth k mask false = false ->
    (count_true mask < length mask)%nat.
Proof.
  induction mask as [|b mask IH]; intros k Hk Hnth; simpl in *; [lia|].
  destruct k as [|k].
  - subst b. pose proof (count_true_le mask). unfold count_true in *.
    simpl. lia.
  - assert (Hrec : (count_true mask < length mask)%nat)
      by (apply (IH k); [lia | exact Hnth]).
    unfold count_true in *. destruct b; simpl; lia.
Qed.

Lemma select_ones {A : Type} (l : list A) :
  select (repeat true (length l)) l = l.
Proof. induction l as [|x l IH]; simpl; [reflexivity | now rewrite IH]. Qed.

Lemma count_true_ones (n : nat) : count_true (repeat true n) = n.
Proof.
  unfold count_true. induction n as [|n IH]; simpl; [reflexivity|].
  now rewrite IH.
Qed.

Lemma argmax_lt (l : list Qc) (k : nat) :
  argmax l = Ok k -> (k < length l)%nat.
Proof.
  destruct l as [|x l]; simpl; [discriminate|]. intros [= <-].
  assert (H1 : forall j, (j < length [x])%nat -> nth j [x] 0 <= x).
  { intros j Hj. simpl in Hj. assert (j = 0%nat) as -> by lia.
    apply Qcle_refl. }
  assert (H2 : forall j, (j < 0)%nat -> nth j [x] 0 < x)
    by (intros j Hj; lia).
  assert (H0 : (0 < length [x])%nat) by (simpl; lia).
  destruct (argmax_from_spec l [x] 0%nat x H0 eq_refl H1 H2) as [H _].
  exact H.
Qed.

Lemma submatrix_fits (mask : list bool) (m : matrix) :
  length mask = nrows m -> length mask = ncols m ->
  submatrix mask m = Ok (cut mask m).
Proof.
  intros Hr Hc. unfold submatrix.
  rewrite <- Hr, <- Hc, Nat.eqb_refl. reflexivity.
Qed.

Lemma cut_wf (mask : list bool) (m : matrix) :
  wf m -> length mask = nrows m -> length mask = ncols m ->
  wf (cut mask m).
Proof.
  intros [Hlen Hall] Hr Hc. unfold wf, cut, nrows, ncols; simpl. split.
  - rewrite length_map. apply select_length. congruence.
  - apply Forall_map. apply Forall_forall. intros r Hin.
    apply select_length.
    assert (Hin' : In r (rows m)).
    { clear -Hin. revert Hin. generalize (rows m).
      induction mask as [|b mask IH]; intros [|x l]; simpl; try contradiction.
      destruct b; simpl; intros H.
      - destruct H as [H|H]; [now left | right; now apply IH].
      - right. now apply IH. }
    rewrite Forall_forall in Hall. rewrite (Hall r Hin'). congruence.
Qed.

(** On a consistent instance with at least one node [trim_graph]
    returns, with these fields. *)
Lemma CSN_trim_graph_ok (self : CSN) (by_inflow by_outflow : bool)
      (min_count : Qc) :
  consistent self -> (0 < nnodes self)%nat ->
  exists (msn : nat) (cm : matrix),
    argmax (sum_axis1 (rows (countmat self))) = Ok msn /\
    (msn < nnodes self)%nat /\
    let mask := trim_mask self msn (sum_axis1 (rows (countmat self)))
                          by_inflow by_outflow min_count in
    (if symmetrize_flag self then symmetrize (cut mask (countmat self))
     else Ok (cut mask (countmat self))) = Ok cm /\
    shape cm = (count_true mask, count_true mask) /\
    wf cm /\
    CSN_trim_graph self by_inflow by_outflow min_count
    = Ok {| countmat := countmat self;
            symmetrize_flag := symmetrize_flag self;
            nnodes := nnodes self;
            transmat := transmat self;
            graph := graph self;
            trim := Some {| trim_indices := [];
                            trim_graph := empty_graph;
                            trim_countmat := cm;
                            trim_nnodes := nrows cm;
                            trim_transmat := count_to_trans cm |} |}.
Proof.
  intros (Hwf & Hn & Hc) Hpos.
  assert (Hlen : length (sum_axis1 (rows (countmat self))) = nnodes self).
  { unfold sum_axis1. rewrite length_map. destruct Hwf as [Hl _]. congruence. }
  destruct (argmax (sum_axis1 (rows (countmat self)))) as [msn|e] eqn:Hmsn.
  2:{ destruct (sum_axis1 (rows (countmat self))); simpl in *;
        [lia | discriminate]. }
  pose proof (argmax_lt _ _ Hmsn) as Hlt. rewrite Hlen in Hlt.
  set (mask := trim_mask self msn (sum_axis1 (rows (countmat self)))
                         by_inflow by_outflow min_count).
  assert (Hml : length mask = nnodes self) by apply trim_mask_length.
  assert (Hsub : submatrix mask (countmat self) = Ok (cut mask (countmat self)))
    by (apply submatrix_fits; congruence).
  assert (Hcw : wf (cut mask (countmat self)))
    by (apply cut_wf; [exact Hwf | congruence | congruence]).
  assert (Hcm : exists cm : matrix,
             (if symmetrize_flag self
              then symmetrize (cut mask (countmat self))
              else Ok (cut mask (countmat self))) = Ok cm /\
             shape cm = (count_true mask, count_true mask) /\ wf cm).
  { destruct (symmetrize_flag self).
    - rewrite symmetrize_square by reflexivity.
      eexists. split; [reflexivity|]. split; [reflexivity | apply build_wf].
    - eexists. split; [reflexivity|]. split; [reflexivity | exact Hcw]. }
  destruct Hcm as (cm & Hcm & Hshape & Hwcm).
  exists msn, cm. split; [reflexivity|]. split; [exact Hlt|].
  cbv zeta. fold mask. split; [exact Hcm|]. split; [exact Hshape|].
  split; [exact Hwcm|].
  unfold CSN_trim_graph. cbv zeta. rewrite Hmsn. unfold bind at 1.
  fold mask. rewrite mask_item_is_not_True, subgraph_nil, Hsub.
  unfold bind at 1. rewrite Hcm. reflexivity.
Qed.

Lemma CSN_init_consistent (counts : counts_arg) (sym : bool) (self : CSN) :
  CSN_init counts sym = Ok self -> wf (countmat self) -> consistent self.
Proof.
  intros H Hwf. apply CSN_init_inv in H.
  destruct H as (_ & _ & Hsq & _ & Hn & _).
  repeat split; try apply Hwf; congruence.
Qed.

Lemma cycle3_csn_consistent : consistent cycle3_csn.
Proof.
  apply (CSN_init_consistent cycle3 false); [reflexivity|].
  split; [reflexivity | repeat constructor].
Qed.

Lemma empty_csn_consistent : consistent empty_csn.
Proof.
  apply (CSN_init_consistent empty00 false); [reflexivity|].
  split; [reflexivity | constructor].
Qed.

(** X13.  On a constructed instance with a well-formed count matrix,
    [trim_graph] returns for every setting of the filters when there is at
    least one node, and raises the [ValueError] of [argmax] when there is
    none. *)
Theorem trim_graph_returns (counts : counts_arg) (sym : bool) (self : CSN)
        (by_inflow by_outflow : bool) (min_count : Qc) :
  CSN_init counts sym = Ok self ->
  wf (countmat self) ->
  ((0 < nnodes self)%nat ->
   is_ok (CSN_trim_graph self by_inflow by_outflow min_count) = true) /\
  (nnodes self = 0%nat ->
   CSN_trim_graph self by_inflow by_outflow min_count
   = Raise (ValueError "attempt to get argmax of an empty sequence" None)).
Proof.
  intros Hinit Hwf.
  pose proof (CSN_init_consistent counts sym self Hinit Hwf) as Hc.
  split.
  - intros Hpos.
    destruct (CSN_trim_graph_ok self by_inflow by_outflow min_count Hc Hpos)
      as (msn & cm & _ & _ & _ & _ & _ & H).
    now rewrite H.
  - intros Hz. destruct Hc as ([Hlen _] & Hn & _).
    unfold CSN_trim_graph. cbv zeta.
    assert (Hrows : rows (countmat self) = []).
    { apply length_zero_iff_nil. congruence. }
    rewrite Hrows. reflexivity.
Qed.

Lemma trim_graph_returns_witness :
  is_ok (CSN_trim_graph cycle3_csn true true 0) = true /\
  CSN_trim_graph empty_csn true true 0
  = Raise (ValueError "attempt to get argmax of an empty sequence" None).
Proof.
  split.
  - apply (trim_graph_returns cycle3 false cycle3_csn true true 0).
    + reflexivity.
    + split; [reflexivity | repeat constructor].
    + vm_compute. lia.
  - apply (trim_graph_returns empty00 false empty_csn true true 0).
    + reflexivity.
    + split; [reflexivity | constructor].
    + reflexivity.
Defined.

(** X14.  Every call of [trim_graph] that returns leaves the count
    matrix, the transition matrix, the graph, [nnodes] and the flag as
    they were, and stores the empty list as [trim_indices], the empty graph
    as the subgraph, the row dimension of [trim_countmat] as
    [trim_nnodes] and the normalized [trim_countmat] as [trim_transmat]. *)
Theorem trim_graph_stores (self self' : CSN) (by_inflow by_outflow : bool)
        (min_count : Qc) :
  CSN_trim_graph self by_inflow by_outflow min_count = Ok self' ->
  countmat self' = countmat self /\
  transmat self' = transmat self /\
  graph self' = graph self /\
  nnodes self' = nnodes self /\
  symmetrize_flag self' = symmetrize_flag self /\
  exists t : trimmed,
    trim self' = Some t /\
    trim_indices t = [] /\
    trim_graph t = empty_graph /\
    trim_nnodes t = nrows (trim_countmat t) /\
    trim_transmat t = count_to_trans (trim_countmat t).
Proof.
  intros H. apply CSN_trim_graph_inv in H.
  destruct H as (msn & tmp & cm & _ & _ & _ & ->). simpl.
  repeat split. eexists. repeat split.
Qed.

Lemma trim_graph_stores_witness :
  exists self' : CSN,
    CSN_trim_graph cycle3_csn true true 0 = Ok self' /\
    countmat self' = countmat cycle3_csn /\
    transmat self' = transmat cycle3_csn /\
    graph self' = graph cycle3_csn /\
    nnodes self' = nnodes cycle3_csn /\
    symmetrize_flag self' = symmetrize_flag cycle3_csn /\
    exists t : trimmed,
      trim self' = Some t /\
      trim_indices t = [] /\
      trim_graph t = empty_graph /\
      trim_nnodes t = nrows (trim_countmat t) /\
      trim_transmat t = count_to_trans (trim_countmat t).
Proof.
  eexists. split; [vm_compute; reflexivity|].
  apply (trim_graph_stores cycle3_csn _ true true 0).
  vm_compute. reflexivity.
Defined.

(** X15.  After every call of [trim_graph] that returns on a consistent
    instance, [trim_countmat] and [trim_transmat] are well-formed square
    matrices of the same dimension [trim_nnodes], which is at most
    [nnodes]. *)
Theorem trim_graph_shapes (self self' : CSN) (by_inflow by_outflow : bool)
        (min_count : Qc) :
  consistent self ->
  CSN_trim_graph self by_inflow by_outflow min_count = Ok self' ->
  exists t : trimmed,
    trim self' = Some t /\
    shape (trim_countmat t) = (trim_nnodes t, trim_nnodes t) /\
    shape (trim_transmat t) = (trim_nnodes t, trim_nnodes t) /\
    wf (trim_countmat t) /\
    wf (trim_transmat t) /\
    (trim_nnodes t <= nnodes self)%nat.
Proof.
  intros Hc H.
  assert (Hpos : (0 < nnodes self)%nat).
  { pose proof (CSN_trim_graph_inv _ _ _ _ _ H) as (k & _ & _ & Hk & _).
    apply argmax_lt in Hk. unfold sum_axis1 in Hk. rewrite length_map in Hk.
    destruct Hc as ([Hlen _] & Hn & _). lia. }
  destruct (CSN_trim_graph_ok self by_inflow by_outflow min_count Hc Hpos)
    as (msn & cm & _ & _ & _ & Hshape & Hwf & Hok).
  rewrite Hok in H. injection H as <-. simpl.
  eexists. split; [reflexivity|]. simpl.
  assert (Hk : nrows cm
               = count_true (trim_mask self msn
                                       (sum_axis1 (rows (countmat self)))
                                       by_inflow by_outflow min_count))
    by (unfold nrows; now rewrite Hshape).
  split; [now rewrite Hk|].
  split; [now rewrite Hk|].
  split; [exact Hwf|].
  split; [now apply count_to_trans_wf|].
  rewrite Hk.
  pose proof (count_true_le
                (trim_mask self msn (sum_axis1 (rows (countmat self)))
                           by_inflow by_outflow min_count)) as Hle.
  now rewrite trim_mask_length in Hle.
Qed.

Lemma trim_graph_shapes_witness :
  exists (self' : CSN) (t : trimmed),
    trim self' = Some t /\
    shape (trim_countmat t) = (trim_nnodes t, trim_nnodes t) /\
    shape (trim_transmat t) = (trim_nnodes t, trim_nnodes t) /\
    wf (trim_countmat t) /\
    wf (trim_transmat t) /\
    (trim_nnodes t <= nnodes cycle3_csn)%nat.
Proof.
  eexists.
  apply (trim_graph_shapes cycle3_csn _ true true 0 cycle3_csn_consistent).
  vm_compute. reflexivity.
Defined.

(** X16.  The method can be called once on an instance: when a call
    [self.trim_graph(...)] has returned, every further call on the
    resulting instance raises [TypeError], whatever the arguments. *)
Theorem trim_graph_only_once (self self' : CSN)
        (by_inflow by_outflow by_inflow' by_outflow' : bool)
        (min_count min_count' : Qc) :
  call_trim_graph self by_inflow by_outflow min_count = Ok self' ->
  call_trim_graph self' by_inflow' by_outflow' min_count'
  = Raise (TypeError "'DiGraph' object is not callable").
Proof.
  unfold call_trim_graph at 1. destruct (trim self); [discriminate|].
  intros H. apply CSN_trim_graph_inv in H.
  destruct H as (msn & tmp & cm & _ & _ & _ & ->). reflexivity.
Qed.

Lemma trim_graph_only_once_witness :
  exists self' : CSN,
    call_trim_graph cycle3_csn false false 0 = Ok self' /\
    call_trim_graph self' true true (qz 2)
    = Raise (TypeError "'DiGraph' object is not callable").
Proof.
  eexists. split; [vm_compute; reflexivity|].
  apply (trim_graph_only_once cycle3_csn _ false false true true 0 (qz 2)).
  vm_compute. reflexivity.
Defined.

Lemma cut_ones (m : matrix) (n : nat) :
  wf m -> nrows m = n -> ncols m = n -> cut (repeat true n) m = m.
Proof.
  destruct m as [[r c] rs]. unfold wf, cut, nrows, ncols; simpl.
  intros [Hlen Hall] -> ->. rewrite count_true_ones. f_equal.
  rewrite <- Hlen at 2. rewrite select_ones.
  transitivity (map (fun r : list Qc => r) rs); [|apply map_id].
  apply map_ext_in. intros r Hin.
  rewrite Forall_forall in Hall. rewrite <- (Hall r Hin). apply select_ones.
Qed.

(** X17.  With both flow filters off and [min_count <= 0] nothing is
    cut: on a consistent instance built without symmetrization the
    trimmed count matrix is the count matrix, the trimmed transition
    matrix is its normalization and [trim_nnodes] is [nnodes]. *)
Theorem trim_graph_no_filter (self : CSN) (min_count : Qc) :
  consistent self ->
  symmetrize_flag self = false ->
  (0 < nnodes self)%nat ->
  min_count <= 0 ->
  exists (self' : CSN) (t : trimmed),
    CSN_trim_graph self false false min_count = Ok self' /\
    trim self' = Some t /\
    trim_countmat t = countmat self /\
    trim_transmat t = count_to_trans (countmat self) /\
    trim_nnodes t = nnodes self.
Proof.
  intros Hc Hflag Hpos Hmc.
  destruct (CSN_trim_graph_ok self false false min_count Hc Hpos)
    as (msn & cm & _ & _ & Hcm & _ & _ & Hok).
  cbv zeta in Hcm. rewrite Hflag in Hcm.
  assert (Hoff : Qcltb 0 min_count = false).
  { destruct (Qcltb 0 min_count) eqn:E; [|reflexivity].
    apply Qcltb_spec in E. now apply Qcle_not_lt in Hmc. }
  unfold trim_mask in Hcm. rewrite Hoff in Hcm. unfold ones_bool in Hcm.
  destruct Hc as (Hwf & Hn & Hcn).
  rewrite (cut_ones (countmat self) (nnodes self)) in Hcm by congruence.
  injection Hcm as <-.
  eexists. eexists. split; [exact Hok|]. simpl.
  repeat split. simpl. congruence.
Qed.

Lemma trim_graph_no_filter_witness :
  exists (self' : CSN) (t : trimmed),
    CSN_trim_graph cycle3_csn false false 0 = Ok self' /\
    trim self' = Some t /\
    trim_countmat t = countmat cycle3_csn /\
    trim_transmat t = count_to_trans (countmat cycle3_csn) /\
    trim_nnodes t = nnodes cycle3_csn.
Proof.
  apply (trim_graph_no_filter cycle3_csn 0 cycle3_csn_consistent).
  - reflexivity.
  - vm_compute. lia.
  - apply Qcle_refl.
Defined.

Lemma trim_mask_min_count_list (self : CSN) (msn : nat)
      (totcounts : list Qc) (min_count : Qc) :
  0 < min_count ->
  length totcounts = nnodes self ->
  trim_mask self msn totcounts false false min_count
  = map (fun tot => Qcltb tot min_count) totcounts.
Proof.
  intros Hpos Hlen.
  apply (nth_ext _ _ false (Qcltb 0 min_count)).
  - now rewrite trim_mask_length, length_map.
  - intros i Hi. rewrite trim_mask_length in Hi.
    rewrite (trim_mask_min_count self msn totcounts min_count i Hpos Hi).
    symmetry. apply (map_nth (fun tot => Qcltb tot min_count)).
Qed.

(** X18.  With the flow filters off and [min_count > 0], what
    [trim_graph] keeps are the rows and columns of the nodes whose row
    total is below [min_count]; the nodes that reach the threshold are cut. *)
Theorem trim_graph_min_count_keeps_below (self : CSN) (min_count : Qc) :
  consistent self ->
  symmetrize_flag self = false ->
  (0 < nnodes self)%nat ->
  0 < min_count ->
  exists (self' : CSN) (t : trimmed),
    CSN_trim_graph self false false min_count = Ok self' /\
    trim self' = Some t /\
    let keep := map (fun tot => Qcltb tot min_count)
                    (sum_axis1 (rows (countmat self))) in
    trim_countmat t = cut keep (countmat self) /\
    trim_nnodes t = count_true keep.
Proof.
  intros Hc Hflag Hpos Hmc.
  destruct (CSN_trim_graph_ok self false false min_count Hc Hpos)
    as (msn & cm & _ & _ & Hcm & Hshape & _ & Hok).
  cbv zeta in Hcm, Hshape. rewrite Hflag in Hcm.
  assert (Hlen : length (sum_axis1 (rows (countmat self))) = nnodes self).
  { unfold sum_axis1. rewrite length_map.
    destruct Hc as ([Hl _] & Hn & _). congruence. }
  rewrite (trim_mask_min_count_list self msn _ min_count Hmc Hlen)
    in Hcm, Hshape.
  injection Hcm as <-.
  eexists. eexists. split; [exact Hok|]. simpl. repeat split.
Qed.

Lemma trim_graph_min_count_keeps_below_witness :
  exists (self' : CSN) (t : trimmed),
    CSN_trim_graph cycle3_csn false false (qz 5) = Ok self' /\
    trim self' = Some t /\
    let keep := map (fun tot => Qcltb tot (qz 5))
                    (sum_axis1 (rows (countmat cycle3_csn))) in
    trim_countmat t = cut keep (countmat cycle3_csn) /\
    trim_nnodes t = count_true keep.
Proof.
  apply (trim_graph_min_count_keeps_below cycle3_csn (qz 5)
           cycle3_csn_consistent).
  - reflexivity.
  - vm_compute. lia.
  - apply Qcltb_spec. reflexivity.
Defined.

(** X19.  With [by_outflow] on, the most-sampled node is always cut:
    on a constructed instance with at least one node the trimmed matrices
    are strictly smaller than the full ones, whatever the other filters. *)
Theorem trim_graph_by_outflow_shrinks (counts : counts_arg) (sym : bool)
        (self : CSN) (by_inflow : bool) (min_count : Qc) :
  CSN_init counts sym = Ok self ->
  wf (countmat self) ->
  (0 < nnodes self)%nat ->
  exists (self' : CSN) (t : trimmed),
    CSN_trim_graph self by_inflow true min_count = Ok self' /\
    trim self' = Some t /\
    (trim_nnodes t < nnodes self)%nat.
Proof.
  intros Hinit Hwf Hpos.
  pose proof (CSN_init_consistent counts sym self Hinit Hwf) as Hc.
  destruct (CSN_trim_graph_ok self by_inflow true min_count Hc Hpos)
    as (msn & cm & _ & Hlt & _ & Hshape & _ & Hok).
  cbv zeta in Hshape.
  eexists. eexists. split; [exact Hok|]. simpl. split; [reflexivity|].
  unfold nrows. rewrite Hshape. simpl.
  pose proof (count_true_lt
                (trim_mask self msn (sum_axis1 (rows (countmat self)))
                           by_inflow true min_count) msn) as Hcut.
  rewrite trim_mask_length in Hcut. apply Hcut; [exact Hlt|].
  apply trim_mask_by_outflow_drops_msn.
Qed.

Lemma trim_graph_by_outflow_shrinks_witness :
  exists (self' : CSN) (t : trimmed),
    CSN_trim_graph cycle3_csn true true 0 = Ok self' /\
    trim self' = Some t /\
    (trim_nnodes t < nnodes cycle3_csn)%nat.
Proof.
  apply (trim_graph_by_outflow_shrinks cycle3 false cycle3_csn true 0).
  - reflexivity.
  - split; [reflexivity | repeat constructor].
  - vm_compute. lia.
Defined.

(* ------------------------------------------------------------------ *)
(** ** What the depth-first search yields                               *)
(* ------------------------------------------------------------------ *)

Lemma reaches_snoc (g : DiGraph) (a b c : nat) :
  reaches g a b -> In c (neighbors g b) -> reaches g a c.
Proof.
  induction 1 as [u|u v w Huv _ IH]; intros Hc.
  - apply reaches_step with (v := c); [exact Hc | apply reaches_refl].
  - apply reaches_step with (v := v); [exact Huv | now apply IH].
Qed.

Lemma dfs_loop_preserves (g : DiGraph) (P : dfs_state -> Prop) :
  (forall st st', P st -> dfs_step g st = Some st' -> P st') ->
  forall (fuel : nat) (st : dfs_state), P st -> P (dfs_loop fuel g st).
Proof.
  intros Hstep. induction fuel as [|fuel IH]; intros st Hst; simpl;
    [exact Hst|].
  destruct (dfs_step g st) as [st'|] eqn:E; [|exact Hst].
  apply IH. eapply Hstep; eassumption.
Qed.

Lemma dfs_step_sound (g : DiGraph) (source : nat) (st st' : dfs_state) :
  dfs_sound g source st -> dfs_step g st = Some st' ->
  dfs_sound g source st'.
Proof.
  unfold dfs_step, dfs_sound. destruct st as [vis stk out]; simpl.
  intros (Hvis & Hstk & Hout).
  destruct stk as [|[p d ch] rest]; [discriminate|].
  inversion Hstk as [|? ? [Hp Hch] Hrest]; subst. simpl in *.
  destruct ch as [|child more].
  - intros [= <-]. simpl. repeat split; assumption.
  - assert (Hmore : incl more (neighbors g p))
      by (intros x Hx; apply Hch; now right).
    assert (Hchild : In child (neighbors g p)) by (apply Hch; now left).
    assert (Hreach : reaches g source child)
      by (eapply reaches_snoc; eassumption).
    destruct (mem child vis).
    + intros [= <-]. simpl. split; [exact Hvis|]. split; [|exact Hout].
      constructor; [now split | exact Hrest].
    + intros [= <-]. simpl. split; [|split].
      * intros v [<-|Hv]; [exact Hreach | now apply Hvis].
      * destruct (Nat.ltb 1 d).
        -- constructor; [split; [exact Hreach | apply incl_refl]|].
           constructor; [now split | exact Hrest].
        -- constructor; [now split | exact Hrest].
      * apply Forall_app. split; [exact Hout|].
        constructor; [now split | constructor].
Qed.

Lemma dfs_edges_sound (g : DiGraph) (source : nat) :
  Forall (fun e : nat * nat => reaches g source (fst e) /\
                               In (snd e) (neighbors g (fst e)))
         (dfs_edges g source).
Proof.
  unfold dfs_edges.
  apply (dfs_loop_preserves g (dfs_sound g source) (dfs_step_sound g source)).
  unfold dfs_sound, dfs_init; simpl. split; [|split].
  - intros v [<-|[]]. apply reaches_refl.
  - constructor; [|constructor]. split; [apply reaches_refl | apply incl_refl].
  - constructor.
Qed.

Lemma dfs_successors_keys (g : DiGraph) (source x : nat) :
  In x (keys (dfs_successors g source)) ->
  In x (map fst (dfs_edges g source)).
Proof.
  unfold dfs_successors.
  assert (Hgen : forall (es : list (nat * nat)) (d : dict (list nat)),
    In x (keys (fold_left
                  (fun d '(s, t) =>
                     let old := match dict_get d s with
                                | Some l => l | None => [] end in
                     dict_set d s (old ++ [t])%list) es d)) ->
    In x (keys d) \/ In x (map fst es)).
  { induction es as [|[s t] es IH]; intros d; simpl; [now left|].
    intros H. destruct (IH _ H) as [H'|H']; [|right; now right].
    destruct (keys_dict_set _ _ _ _ H') as [->|H''];
      [right; now left | now left]. }
  intros H. destruct (Hgen _ _ H) as [[]|H']. exact H'.
Qed.

(** Every key of [dfs_successors(g, source)] is reachable from the start
    node and has at least one successor; every key of
    [dfs_predecessors(g, source)] is reachable from the start node and is
    not the start node. *)
Lemma dfs_keys_reachable (g : DiGraph) (source x : nat) :
  (In x (keys (dfs_successors g source)) ->
   reaches g source x /\ neighbors g x <> []) /\
  (In x (keys (dfs_predecessors g source)) ->
   reaches g source x /\ x <> source).
Proof.
  pose proof (dfs_edges_sound g source) as Hs.
  rewrite Forall_forall in Hs. split; intros H.
  - apply dfs_successors_keys in H. apply in_map_iff in H.
    destruct H as [[s t] [<- Hin]]. destruct (Hs _ Hin) as [Hr Ht].
    simpl in *. split; [exact Hr|]. intros E. rewrite E in Ht. contradiction.
  - split.
    + apply dfs_predecessors_keys in H. apply in_map_iff in H.
      destruct H as [[s t] [<- Hin]]. destruct (Hs _ Hin) as [Hr Ht].
      simpl in *. eapply reaches_snoc; eassumption.
    + intros ->. apply mem_true_iff in H.
      rewrite dfs_predecessors_no_source in H. discriminate.
Qed.

Lemma nth_true_lt (mask : list bool) (i : nat) :
  nth i mask false = true -> (i < length mask)%nat.
Proof.
  intros H. destruct (Nat.lt_ge_cases i (length mask)) as [Hlt|Hge];
    [exact Hlt|].
  rewrite nth_overflow in H by exact Hge. discriminate.
Qed.

(** X20.  What the [by_inflow] filter lets through: a node kept by the
    mask when [by_inflow] is on is reachable from the most-sampled node
    along directed edges (a descendant of it) and has at least one
    successor in the graph. *)
Theorem trim_mask_by_inflow_sound (self : CSN) (msn : nat)
        (totcounts : list Qc) (by_outflow : bool) (min_count : Qc)
        (i : nat) :
  nth i (trim_mask self msn totcounts true by_outflow min_count) false
  = true ->
  reaches (graph self) msn i /\ neighbors (graph self) i <> [].
Proof.
  unfold trim_mask. cbv zeta.
  set (m1 := if by_outflow then _ else ones_bool (nnodes self)).
  assert (Hm1 : length m1 = nnodes self).
  { subst m1. destruct by_outflow; rewrite ?clear_all_length;
      apply repeat_length. }
  clearbody m1. intros H.
  assert (H2 : nth i (clear_all
                        (filter (fun i => negb (mem i (keys (dfs_successors
                                                              (graph self) msn))))
                                (range (nnodes self))) m1) false = true).
  { destruct (Qcltb 0 min_count); [|exact H].
    rewrite clear_filter_nth in H. apply andb_prop in H. now destruct H. }
  rewrite clear_filter_nth in H2. apply andb_prop in H2.
  destruct H2 as [Hup Hi]. apply nth_true_lt in Hi. rewrite Hm1 in Hi.
  apply Nat.ltb_lt in Hi. rewrite Hi in Hup. simpl in Hup.
  apply negb_true_iff, negb_false_iff, mem_true_iff in Hup.
  now apply (dfs_keys_reachable (graph self) msn i).
Qed.

Lemma trim_mask_by_inflow_sound_witness :
  reaches (graph cycle3_csn) 0 1 /\ neighbors (graph cycle3_csn) 1 <> [].
Proof.
  apply (trim_mask_by_inflow_sound cycle3_csn 0
           (sum_axis1 (rows (countmat cycle3_csn))) true 0 1).
  vm_compute. reflexivity.
Defined.

(* ------------------------------------------------------------------ *)
(** ** The search visits every node reachable from its source           *)
(* ------------------------------------------------------------------ *)

Section DfsComplete.

Variable g : DiGraph.
Variable source : nat.
Hypothesis Hclosed : graph_closed g.

Lemma order_keys : order g = length (keys (node g)).
Proof. unfold order, keys. now rewrite length_map. Qed.

Lemma dfs_step_progress (st st' : dfs_state) :
  dfs_progress g source st -> dfs_step g st = Some st' ->
  dfs_progress g source st'.
Proof.
  unfold dfs_step, dfs_progress. destruct st as [vis stk out]; simpl.
  intros (Hsrc & Hsub & Hfr & Hnd & Hdep & Hpend & Htgt).
  destruct stk as [|[p d ch] rest]; [discriminate|].
  inversion Hfr as [|? ? [Hp Hch] Hrest]; subst. simpl in Hp, Hch.
  simpl in Hnd. inversion Hnd as [|? ? Hpn Hnd']; subst.
  simpl in Hdep. destruct Hdep as [Hd Hdep'].
  cbn [children parent depth_now].
  destruct ch as [|child more].
  - (* pop *)
    intros [= <-]. simpl.
    repeat (split; [assumption|]). split; [|exact Htgt].
    intros v Hv. destruct (Hpend v Hv) as [Hfin|(f & Hf & Hpf & Hw)];
      [now left|].
    destruct Hf as [<-|Hf].
    + left. intros w Hw'. destruct (Hw w Hw') as [H|[]]. exact H.
    + right. exists f. repeat split; assumption.
  - assert (Hmore : incl more (neighbors g p))
      by (intros x Hx; apply Hch; now right).
    assert (Hchild : In child (neighbors g p)) by (apply Hch; now left).
    destruct (mem child vis) eqn:Hmem.
    + (* child already visited *)
      apply mem_true_iff in Hmem.
      intros [= <-]. simpl.
      split; [exact Hsrc|]. split; [exact Hsub|].
      split; [constructor; [now split | exact Hrest]|].
      split; [exact Hnd|]. split; [now split|]. split; [|exact Htgt].
      intros v Hv. destruct (Hpend v Hv) as [Hfin|(f & Hf & Hpf & Hw)];
        [now left|].
      right. destruct Hf as [<-|Hf].
      * eexists. split; [now left|]. split; [exact Hpf|].
        intros w Hw'. destruct (Hw w Hw') as [H|[<-|H]];
          [now left | now left | now right].
      * exists f. split; [now right|]. now split.
    + (* child not visited: yield it and push its frame *)
      assert (Hnv : ~ In child vis).
      { intros Hin. apply mem_true_iff in Hin. congruence. }
      assert (Hparents : incl (p :: map parent rest) vis).
      { intros x [<-|Hx]; [exact Hp|].
        apply in_map_iff in Hx. destruct Hx as [f [<- Hf]].
        rewrite Forall_forall in Hrest. now destruct (Hrest f Hf). }
      assert (Hnd2 : NoDup (child :: p :: map parent rest)).
      { constructor; [|exact Hnd]. intros Hin. apply Hnv.
        now apply Hparents. }
      assert (Hdeep : (2 <= d)%nat).
      { assert (Hincl : incl (child :: p :: map parent rest)
                             (keys (node g))).
        { intros x [<-|Hx]; [now apply (Hclosed p)|].
          apply Hsub. now apply Hparents. }
        pose proof (NoDup_incl_length Hnd2 Hincl) as Hlen.
        simpl in Hlen. rewrite length_map, <- order_keys in Hlen. lia. }
      assert (Hlt : Nat.ltb 1 d = true) by (apply Nat.ltb_lt; lia).
      rewrite Hlt. intros [= <-]. simpl.
      split; [now right|].
      split.
      { intros x [<-|Hx]; [now apply (Hclosed p) | now apply Hsub]. }
      split.
      { constructor; [split; [now left | apply incl_refl]|].
        constructor; [split; [now right | exact Hmore]|].
        eapply Forall_impl; [|exact Hrest].
        intros f [Hf1 Hf2]. split; [now right | exact Hf2]. }
      split; [exact Hnd2|].
      split; [repeat split; try assumption; simpl; lia|].
      split.
      * intros v [<-|Hv].
        -- right. eexists. split; [now left|]. split; [reflexivity|].
           intros w Hw. now right.
        -- destruct (Hpend v Hv) as [Hfin|(f & Hf & Hpf & Hw)].
           ++ left. intros w Hw. right. now apply Hfin.
           ++ right. destruct Hf as [<-|Hf].
              ** eexists. split; [right; now left|].
                 split; [exact Hpf|].
                 intros w Hw'. destruct (Hw w Hw') as [H|[<-|H]].
                 --- left. now right.
                 --- left. now left.
                 --- now right.
              ** exists f. split; [right; now right|].
                 split; [exact Hpf|].
                 intros w Hw'. destruct (Hw w Hw') as [H|H];
                   [left; now right | now right].
      * intros v [<-|Hv].
        -- right. rewrite map_app. apply in_or_app. right. now left.
        -- destruct (Htgt v Hv) as [H|H]; [now left|].
           right. rewrite map_app. apply in_or_app. now left.
Qed.

Lemma dfs_init_progress :
  In source (keys (node g)) -> dfs_progress g source (dfs_init g source).
Proof.
  intros Hsrc. unfold dfs_progress, dfs_init; simpl.
  split; [now left|].
  split; [intros x [<-|[]]; exact Hsrc|].
  split; [constructor; [split; [now left | apply incl_refl] | constructor]|].
  split; [constructor; [intros [] | constructor]|].
  split; [split; [lia | exact I]|].
  split.
  - intros v [<-|[]]. right. eexists. split; [now left|].
    split; [reflexivity|]. intros w Hw. now right.
  - intros v [<-|[]]. now left.
Qed.

(** Every node reachable from the source, other than the source, is
    the target of a yielded edge. *)
Lemma dfs_edges_complete (x : nat) :
  In source (keys (node g)) ->
  reaches g source x -> x <> source ->
  In x (map snd (dfs_edges g source)).
Proof.
  intros Hsrc Hreach Hne. unfold dfs_edges.
  pose proof (dfs_loop_preserves g (dfs_progress g source)
                dfs_step_progress (dfs_fuel g source)
                (dfs_init g source) (dfs_init_progress Hsrc)) as Hinv.
  pose proof (dfs_loop_completes g source) as Hdone.
  destruct (dfs_loop (dfs_fuel g source) g (dfs_init g source))
    as [vis stk out]. simpl in *. subst stk.
  destruct Hinv as (Hs & _ & _ & _ & _ & Hpend & Htgt). simpl in *.
  assert (Hclosure : forall u w, reaches g u w -> In u vis -> In w vis).
  { induction 1 as [u|u v w Huv _ IH]; intros Hu; [exact Hu|].
    apply IH. destruct (Hpend u Hu) as [Hfin|(f & [] & _)].
    now apply Hfin. }
  destruct (Htgt x (Hclosure _ _ Hreach Hs)) as [H|H]; [contradiction|].
  exact H.
Qed.

Lemma keys_dict_set_in {V : Type} (d : dict V) (k x : nat) (v : V) :
  x = k \/ In x (keys d) -> In x (keys (dict_set d k v)).
Proof.
  induction d as [|[k' v'] d IH]; simpl.
  - intros [->|[]]. now left.
  - destruct (Nat.eqb_spec k k') as [->|Hne]; simpl.
    + intros [->|[->|H]]; [now left | now left | now right].
    + intros [->|[->|H]].
      * right. apply IH. now left.
      * now left.
      * right. apply IH. now right.
Qed.

Lemma dfs_predecessors_keys_in (x : nat) :
  In x (map snd (dfs_edges g source)) ->
  In x (keys (dfs_predecessors g source)).
Proof.
  unfold dfs_predecessors.
  assert (Hgen : forall (es : list (nat * nat)) (d : dict nat),
    In x (keys d) \/ In x (map snd es) ->
    In x (keys (fold_left (fun d '(s, t) => dict_set d t s) es d))).
  { induction es as [|[s t] es IH]; intros d; simpl.
    - intros [H|[]]. exact H.
    - intros H. apply IH. destruct H as [H|[<-|H]].
      + left. apply keys_dict_set_in. now right.
      + left. apply keys_dict_set_in. now left.
      + now right. }
  intros H. apply Hgen. now right.
Qed.

End DfsComplete.

Lemma get_nonzero_in_range (m : matrix) (i j : nat) :
  wf m -> get m i j <> 0 -> (i < nrows m)%nat /\ (j < ncols m)%nat.
Proof.
  intros [Hlen Hall] Hnz. unfold get in Hnz.
  destruct (Nat.lt_ge_cases i (length (rows m))) as [Hi|Hi].
  - split; [congruence|].
    rewrite Forall_forall in Hall.
    rewrite <- (Hall (nth i (rows m) [])) by (now apply nth_In).
    destruct (Nat.lt_ge_cases j (length (nth i (rows m) []))) as [Hj|Hj];
      [exact Hj|].
    rewrite (nth_overflow _ _ Hj) in Hnz. congruence.
  - rewrite (nth_overflow _ _ Hi) in Hnz. destruct j; simpl in Hnz; congruence.
Qed.

Lemma CSN_init_graph_closed (counts : counts_arg) (sym : bool) (self : CSN) :
  CSN_init counts sym = Ok self ->
  wf (countmat self) ->
  graph_closed (graph self) /\
  keys (node (graph self)) = range (nnodes self).
Proof.
  intros H Hwf.
  destruct (CSN_init_graph counts sym self H Hwf) as [Hnode _].
  assert (Hkeys : keys (node (graph self)) = range (nnodes self)).
  { rewrite Hnode. unfold id_nodes, keys. rewrite map_map. apply map_id. }
  split; [|exact Hkeys].
  intros u v Huv. rewrite Hkeys.
  apply (CSN_init_neighbors counts sym self u v H Hwf) in Huv.
  pose proof (CSN_init_inv counts sym self H)
    as (_ & _ & Hsq & _ & Hn & Ht & _).
  assert (Hwt : wf (transmat self))
    by (rewrite Ht; now apply count_to_trans_wf).
  destruct (get_nonzero_in_range (transmat self) u v Hwt Huv) as [_ Hv].
  unfold ncols in *. rewrite Ht in Hv. simpl in Hv.
  unfold range. apply in_seq. unfold nrows in *. lia.
Qed.

(** X21.  What the [by_outflow] filter lets through on a constructed
    instance, when it is the only filter: the mask keeps exactly the nodes
    other than the most-sampled node that are reachable from it along
    directed edges. *)
Theorem trim_mask_by_outflow_exact (counts : counts_arg) (sym : bool)
        (self : CSN) (msn : nat) (totcounts : list Qc) (min_count : Qc)
        (i : nat) :
  CSN_init counts sym = Ok self ->
  wf (countmat self) ->
  (msn < nnodes self)%nat ->
  min_count <= 0 ->
  (nth i (trim_mask self msn totcounts false true min_count) false = true
   <-> reaches (graph self) msn i /\ i <> msn).
Proof.
  intros H Hwf Hmsn Hmc.
  destruct (CSN_init_graph_closed counts sym self H Hwf) as [Hclosed Hkeys].
  assert (Hoff : Qcltb 0 min_count = false).
  { destruct (Qcltb 0 min_count) eqn:E; [|reflexivity].
    apply Qcltb_spec in E. now apply Qcle_not_lt in Hmc. }
  unfold trim_mask. rewrite Hoff. cbv zeta.
  rewrite clear_filter_nth, ones_bool_nth.
  assert (Hsrc : In msn (keys (node (graph self)))).
  { rewrite Hkeys. unfold range. apply in_seq. lia. }
  split.
  - intros Hm. apply andb_prop in Hm. destruct Hm as [Hdown Hi].
    rewrite Hi in Hdown. simpl in Hdown.
    apply negb_true_iff, negb_false_iff, mem_true_iff in Hdown.
    now apply (dfs_keys_reachable (graph self) msn i).
  - intros [Hreach Hne].
    assert (Hin : In i (map snd (dfs_edges (graph self) msn)))
      by (now apply dfs_edges_complete).
    assert (Hi : (i < nnodes self)%nat).
    { apply in_map_iff in Hin. destruct Hin as [[s t] [<- Hin]].
      pose proof (dfs_edges_sound (graph self) msn) as Hs.
      rewrite Forall_forall in Hs. destruct (Hs _ Hin) as [_ Ht].
      apply Hclosed in Ht. rewrite Hkeys in Ht. unfold range in Ht.
      apply in_seq in Ht. simpl in *. lia. }
    apply (dfs_predecessors_keys_in (graph self) msn) in Hin.
    apply mem_true_iff in Hin. rewrite Hin.
    apply Nat.ltb_lt in Hi. rewrite Hi. reflexivity.
Qed.

Lemma trim_mask_by_outflow_exact_witness :
  nth 2 (trim_mask cycle3_csn 0 (sum_axis1 (rows (countmat cycle3_csn)))
                   false true 0) false = true
  <-> reaches (graph cycle3_csn) 0 2 /\ 2%nat <> 0%nat.
Proof.
  apply (trim_mask_by_outflow_exact cycle3 false cycle3_csn 0
           (sum_axis1 (rows (countmat cycle3_csn))) 0 2).
  - reflexivity.
  - split; [reflexivity | repeat constructor].
  - vm_compute. lia.
  - apply Qcle_refl.
Defined.

(* ------------------------------------------------------------------ *)
(** ** Nested lists as input                                            *)
(* ------------------------------------------------------------------ *)

Lemma coo_of_list_inv (l : list (list Qc)) (m : matrix) :
  coo_of_list l = Ok m ->
  wf m /\
  (l = [] -> shape m = (1, 0)%nat) /\
  (l <> [] -> rows m = l /\ nrows m = length l /\
              Forall (fun r => length r = ncols m) l).
Proof.
  unfold coo_of_list. destruct l as [|r l].
  - intros [= <-]. split; [split; [reflexivity | repeat constructor]|].
    split; [reflexivity | congruence].
  - destruct (forallb _ l) eqn:Hall; [|discriminate].
    intros [= <-].
    assert (Hrows : Forall (fun r' => length r' = length r) (r :: l)).
    { constructor; [reflexivity|]. apply Forall_forall. intros r' Hin.
      rewrite forallb_forall in Hall. apply Nat.eqb_eq. now apply Hall. }
    split; [split; [reflexivity | exact Hrows]|].
    split; [discriminate|]. intros _. repeat split. exact Hrows.
Qed.

(** X22.  From a nested list the constructor only builds an instance
    when the list is a non-empty square table: the empty list and lists
    whose rows do not all have as many entries as there are rows are
    refused; the rows become the count matrix, which is well formed. *)
Theorem CSN_init_list (l : list (list Qc)) (sym : bool) (self : CSN) :
  CSN_init (CountsList l) sym = Ok self ->
  l <> [] /\
  rows (countmat self) = l /\
  nnodes self = length l /\
  Forall (fun r => length r = length l) l /\
  consistent self.
Proof.
  intros H. pose proof (CSN_init_inv _ _ _ H)
    as (_ & Hc & Hsq & _ & Hn & _).
  simpl in Hc. destruct (coo_of_list_inv l (countmat self) Hc)
    as (Hwf & Hnil & Hcons).
  assert (Hne : l <> []).
  { intros ->. specialize (Hnil eq_refl).
    unfold nrows, ncols in Hsq. rewrite Hnil in Hsq. discriminate. }
  destruct (Hcons Hne) as (Hrows & Hlen & Hall).
  split; [exact Hne|]. split; [exact Hrows|]. split; [congruence|].
  split.
  - eapply Forall_impl; [|exact Hall]. intros r Hr. simpl in Hr. congruence.
  - repeat split; try apply Hwf; congruence.
Qed.

Lemma CSN_init_list_witness :
  exists self : CSN,
    qrows [[0; 5; 0]; [0; 0; 5]; [5; 0; 0]]%Z <> [] /\
    rows (countmat self) = qrows [[0; 5; 0]; [0; 0; 5]; [5; 0; 0]]%Z /\
    nnodes self = length (qrows [[0; 5; 0]; [0; 0; 5]; [5; 0; 0]]%Z) /\
    Forall (fun r => length r
                     = length (qrows [[0; 5; 0]; [0; 0; 5]; [5; 0; 0]]%Z))
           (qrows [[0; 5; 0]; [0; 0; 5]; [5; 0; 0]]%Z) /\
    consistent self.
Proof.
  eexists.
  apply (CSN_init_list (qrows [[0; 5; 0]; [0; 0; 5]; [5; 0; 0]]%Z) false).
  reflexivity.
Defined.

(* ------------------------------------------------------------------ *)
(** ** Trimming again through the class                                 *)
(* ------------------------------------------------------------------ *)

(** X23.  The trimmed view depends on the count matrix, the graph,
    [nnodes] and the flag only, not on an earlier trimmed view: applying
    the function of the class to an instance that was trimmed before gives
    what it gives on the instance before that trimming. *)
Theorem trim_graph_no_history (self self' : CSN)
        (by_inflow by_outflow by_inflow' by_outflow' : bool)
        (min_count min_count' : Qc) :
  CSN_trim_graph self by_inflow by_outflow min_count = Ok self' ->
  CSN_trim_graph self' by_inflow' by_outflow' min_count'
  = CSN_trim_graph self by_inflow' by_outflow' min_count'.
Proof.
  intros H. apply CSN_trim_graph_inv in H.
  destruct H as (msn & tmp & cm & _ & _ & _ & ->). reflexivity.
Qed.

Lemma trim_graph_no_history_witness :
  exists self' : CSN,
    CSN_trim_graph cycle3_csn true true 0 = Ok self' /\
    CSN_trim_graph self' false false (qz 5)
    = CSN_trim_graph cycle3_csn false false (qz 5).
Proof.
  eexists. split; [vm_compute; reflexivity|].
  apply (trim_graph_no_history cycle3_csn _ true true false false 0 (qz 5)).
  vm_compute. reflexivity.
Defined.
